(** * Citation network analysis service (app/services/citation_service.py)

    A shallow embedding of [CitationService.build_citation_network] and
    [CitationService.calculate_paper_influence], of the two list functions
    of the service, of the schema classes the builder instantiates
    (app/schemas/paper.py) and of the endpoints (app/api/v1/citations.py).

    Conventions of the embedding:
    - paper ids are the canonical string form of a UUID, as the API layer
      passes [str(paper_id)]; on such strings [UUID(.)] and [str(.)] are
      inverse to each other and are left out;
    - Python [int] is [Z], Python [float] is an IEEE 754 binary64 number
      ([spec_float] with the operations of [SpecFloat]);
    - a Python [str] that is only copied and compared is a [string]; the
      context of a citation, which is cut by characters, is the list of its
      code points ([pystr]);
    - the SQLAlchemy session is a pair of tables together with a failure
      oracle: a query either raises or returns the rows selected from the
      tables, in table order;
    - logging calls have no effect on the results and are left out;
    - nodes and edges are the dicts the builder makes at lines 55-64, 77-83
      and 98-104, as records, and [NetworkArgs] is the record of keyword
      arguments of the call [CitationNetwork(...)] at lines 113-120;
    - a pydantic model class is the function that validates the keyword
      arguments against the fields the class declares: a required field
      without a value and a value that is not of the declared type are
      errors, keys that are no fields are ignored, and any error makes the
      call raise [ValidationError]. *)

From Stdlib Require Import ZArith Floats.
From stdpp Require Import base gmap strings list sorting.

Local Open Scope string_scope.
Local Open Scope Z_scope.
Local Open Scope list_scope.

(** ** Exceptions and the error monad *)

(** The place of a validation error: field names and list indices, from the
    outside in. *)
Inductive loc_item :=
| LocName (name : string)
| LocIndex (i : nat).

(** A required field has no value, or a value is not of the declared type. *)
Inductive error_kind := missing | wrong_type.

Record line_error := {
  error_loc : list loc_item;
  error_type : error_kind;
}.

(** [ValidationError] is pydantic's, with the name of the model class and
    the errors in the order of validation. *)
Inductive exn :=
| ValueError (msg : string)
| TypeError (msg : string)
| IndexError (msg : string)
| OverflowError (msg : string)
| ZeroDivisionError (msg : string)
| StoreError (msg : string)
| ValidationError (model : string) (errors : list line_error).

Inductive result (A : Type) :=
| Return (a : A)
| Raise (e : exn).
Arguments Return {A} a.
Arguments Raise {A} e.

Definition bind {A B} (m : result A) (k : A → result B) : result B :=
  match m with
  | Return a => k a
  | Raise e => Raise e
  end.

Notation "x ←r m ; k" := (bind m (λ x, k))
  (at level 100, m at next level, right associativity).

(** [try: body except Exception as e: handler e] *)
Definition try_except {A} (body : result A) (handler : exn → result A) : result A :=
  match body with
  | Return a => Return a
  | Raise e => handler e
  end.

(** ** Floats

    A Python [float] is an IEEE 754 binary64 number: [spec_float] with the
    operations of [SpecFloat] at precision 53 and maximal exponent 1024. *)

Definition pyfloat := spec_float.

(** The literals of the source; [0.3] and [0.2] denote the nearest binary64
    numbers, written here in hexadecimal. *)
Definition float_0_5 : pyfloat := Eval cbv in Prim2SF 0.5%float.
Definition float_0_3 : pyfloat := Eval cbv in Prim2SF 0x1.3333333333333p-2%float.
Definition float_0_2 : pyfloat := Eval cbv in Prim2SF 0x1.999999999999ap-3%float.
Definition float_1_0 : pyfloat := Eval cbv in Prim2SF 1.0%float.
Definition float_0_0 : pyfloat := Eval cbv in Prim2SF 0.0%float.

(** The float the divisor [100] is converted to. *)
Definition float_100 : pyfloat := Eval cbv in Prim2SF 100%float.

(** The conversion of an [int] operand of a mixed [int]/[float] operation:
    round to nearest, ties to even; [OverflowError] beyond the largest
    finite float. *)
Definition float_of_int (z : Z) : result pyfloat :=
  match binary_normalize prec emax z 0 false with
  | S754_infinity _ => Raise (OverflowError "int too large to convert to float")
  | f => Return f
  end.

(** [n * x] for an [int] n and a [float] x. *)
Definition int_mul_float (n : Z) (x : pyfloat) : result pyfloat :=
  f ←r float_of_int n; Return (SF64mul f x).

(** [x / n] for a [float] x and an [int] n. *)
Definition float_div_int (x : pyfloat) (n : Z) : result pyfloat :=
  if n =? 0 then Raise (ZeroDivisionError "float division by zero")
  else f ←r float_of_int n; Return (SF64div x f).

(** [min(a, b)]: the first argument, unless the second is smaller. *)
Definition py_min (a b : pyfloat) : pyfloat :=
  if SFltb b a then b else a.

(** ** The relational store (app/db/models.py) *)

Definition paper_id := string.

(** A [str] by its code points. *)
Definition pystr := list N.

Definition pystr_of_string (s : string) : pystr := Ascii.N_of_ascii <$> String.list_ascii_of_string s.

(** A JSON object with string values, as stored in [Paper.authors]. *)
Definition json_object := list (string * string).

Fixpoint dict_get (key default : string) (o : json_object) : string :=
  match o with
  | [] => default
  | (k, v) :: o' => if String.eqb k key then v else dict_get key default o'
  end.

Record Paper := {
  id : paper_id;
  title : string;
  authors : option (list json_object);
  publication_year : option Z;
  citation_count : option Z;
  influence_score : option pyfloat;
}.

Record Citation := {
  citing_paper_id : paper_id;
  cited_paper_id : paper_id;
  context : option pystr;
  strength : option pyfloat;
}.

(** The queries the service issues. *)
Inductive query :=
| QPaperFirst (pid : paper_id)
| QCitationsOfCited (pid : paper_id)
| QCitationsOfCiting (pid : paper_id)
| QCountOfCited (pid : paper_id)
| QCountSecondOrder (pid : paper_id)
| QCitingPapers (pid : paper_id).

Record Session := {
  papers : list Paper;
  citations : list Citation;
  failure : query → option string;
}.

Definition run_query {A} (db : Session) (q : query) (rows : A) : result A :=
  match failure db q with
  | Some msg => Raise (StoreError msg)
  | None => Return rows
  end.

(** The rows the three basic queries select, in table order. *)
Definition paper_row (db : Session) (pid : paper_id) : option Paper :=
  head (filter (λ p, id p = pid) (papers db)).

Definition rows_citing (db : Session) (pid : paper_id) : list Citation :=
  filter (λ c, cited_paper_id c = pid) (citations db).

Definition rows_cited_by (db : Session) (pid : paper_id) : list Citation :=
  filter (λ c, citing_paper_id c = pid) (citations db).

(** [db.query(Paper).filter(Paper.id == UUID(pid)).first()] *)
Definition query_paper (db : Session) (pid : paper_id) : result (option Paper) :=
  run_query db (QPaperFirst pid) (paper_row db pid).

(** [db.query(Citation).filter(Citation.cited_paper_id == UUID(pid)).all()] *)
Definition query_citing_citations (db : Session) (pid : paper_id) : result (list Citation) :=
  run_query db (QCitationsOfCited pid) (rows_citing db pid).

(** [db.query(Citation).filter(Citation.citing_paper_id == UUID(pid)).all()] *)
Definition query_cited_citations (db : Session) (pid : paper_id) : result (list Citation) :=
  run_query db (QCitationsOfCiting pid) (rows_cited_by db pid).

(** ** The citation network *)

(** The dict built at lines 55-64. *)
Record Node := {
  node_id : paper_id;
  node_title : string;
  node_authors : list string;
  node_publication_year : option Z;
  node_citation_count : option Z;
  node_influence_score : option pyfloat;
  is_center : bool;
  node_depth : Z;
}.

(** The dict built at lines 77-83 and 98-104. *)
Record Edge := {
  source : paper_id;
  target : paper_id;
  edge_strength : option pyfloat;
  edge_context : pystr;
  edge_type : string;
}.

(** The keyword arguments of the call [CitationNetwork(...)], lines
    113-120. *)
Record NetworkArgs := {
  nodes : list Node;
  edges : list Edge;
  center_paper_id : paper_id;
  depth : Z;
  total_papers : Z;
  total_citations : Z;
}.

(** A Python dict in insertion order: assignment to a present key keeps the
    key's position, assignment to a new key appends. *)
Fixpoint dict_set {V} (k : paper_id) (v : V) (d : list (paper_id * V)) : list (paper_id * V) :=
  match d with
  | [] => [(k, v)]
  | (k', v') :: d' => if decide (k' = k) then (k, v) :: d' else (k', v') :: dict_set k v d'
  end.

Definition dict_keys {V} (d : list (paper_id * V)) : list paper_id := d.*1.
Definition dict_values {V} (d : list (paper_id * V)) : list V := d.*2.

(** [citation.context[:100] if citation.context else ""] *)
Definition context_snippet (c : Citation) : pystr :=
  match context c with
  | Some s => if bool_decide (s = []) then [] else take 100 s
  | None => []
  end.

Definition make_node (center : paper_id) (current : paper_id) (current_depth : Z)
    (paper : Paper) : Node :=
  {| node_id := current;
     node_title := title paper;
     node_authors := map (dict_get "name" "") (default [] (authors paper));
     node_publication_year := publication_year paper;
     node_citation_count := citation_count paper;
     node_influence_score := influence_score paper;
     is_center := bool_decide (current = center);
     node_depth := current_depth |}.

Definition make_edge (src tgt : paper_id) (c : Citation) : Edge :=
  {| source := src;
     target := tgt;
     edge_strength := strength c;
     edge_context := context_snippet c;
     edge_type := "cites" |}.

(** The variables of the traversal loop. *)
Record State := {
  st_nodes : list (paper_id * Node);
  st_edges : list Edge;
  st_visited : gset paper_id;
  st_queue : list (paper_id * Z);
}.

Section traversal.
Variable db : Session.
Variable center : paper_id.
Variable max_depth : Z.
Variable max_papers : Z.

(** [while queue and len(nodes) < max_papers] *)
Definition loop_cond (s : State) : bool :=
  negb (bool_decide (st_queue s = [])) && (Z.of_nat (length (st_nodes s)) <? max_papers).

(** One round of [for citation in citing_citations]: the edge is appended
    and the citing paper is queued unless it is visited. *)
Definition citing_round (visited : gset paper_id) (current : paper_id) (current_depth : Z)
    (acc : list Edge * list (paper_id * Z)) (c : Citation) : list Edge * list (paper_id * Z) :=
  let citing := citing_paper_id c in
  (acc.1 ++ [make_edge citing current c],
   if bool_decide (citing ∈ visited) then acc.2 else acc.2 ++ [(citing, current_depth + 1)]).

(** One round of [for citation in cited_citations]. *)
Definition cited_round (visited : gset paper_id) (current : paper_id) (current_depth : Z)
    (acc : list Edge * list (paper_id * Z)) (c : Citation) : list Edge * list (paper_id * Z) :=
  let cited := cited_paper_id c in
  (acc.1 ++ [make_edge current cited c],
   if bool_decide (cited ∈ visited) then acc.2 else acc.2 ++ [(cited, current_depth + 1)]).

(** The body of the while loop, lines 42-108. *)
Definition loop_body (s : State) : result State :=
  match st_queue s with
  | [] => Raise (IndexError "pop from empty list")
  | (current, current_depth) :: queue =>
    if bool_decide (current ∈ st_visited s) || (max_depth <? current_depth) then
      Return {| st_nodes := st_nodes s; st_edges := st_edges s;
                st_visited := st_visited s; st_queue := queue |}
    else
      let visited := {[current]} ∪ st_visited s in
      paper ←r query_paper db current;
      match paper with
      | None =>
        Return {| st_nodes := st_nodes s; st_edges := st_edges s;
                  st_visited := visited; st_queue := queue |}
      | Some paper =>
        let nodes := dict_set current (make_node center current current_depth paper) (st_nodes s) in
        if current_depth <? max_depth then
          citing_citations ←r query_citing_citations db current;
          let acc1 := foldl (citing_round visited current current_depth)
                            (st_edges s, queue) citing_citations in
          cited_citations ←r query_cited_citations db current;
          let acc2 := foldl (cited_round visited current current_depth)
                            acc1 cited_citations in
          Return {| st_nodes := nodes; st_edges := acc2.1;
                    st_visited := visited; st_queue := acc2.2 |}
        else
          Return {| st_nodes := nodes; st_edges := st_edges s;
                    st_visited := visited; st_queue := queue |}
      end
  end.

(** The while loop, run for at most [fuel] tests of its condition; [None]
    when the fuel does not suffice. *)
Fixpoint while_loop (fuel : nat) (s : State) : option (result State) :=
  match fuel with
  | O => None
  | S fuel' =>
    if loop_cond s then
      match loop_body s with
      | Return s' => while_loop fuel' s'
      | Raise e => Some (Raise e)
      end
    else Some (Return s)
  end.

Definition initial_state : State :=
  {| st_nodes := []; st_edges := []; st_visited := ∅; st_queue := [(center, 0)] |}.

Definition network_args (s : State) : NetworkArgs :=
  let node_list := dict_values (st_nodes s) in
  {| nodes := node_list;
     edges := st_edges s;
     center_paper_id := center;
     depth := max_depth;
     total_papers := Z.of_nat (length node_list);
     total_citations := Z.of_nat (length (st_edges s)) |}.

(** Lines 29-120 up to the call of the constructor, with the loop given
    [fuel]: the keyword arguments the call is made with, or the exception
    raised before. *)
Definition traverse_with_fuel (fuel : nat) : option (result NetworkArgs) :=
  match query_paper db center with
  | Raise e => Some (Raise e)
  | Return None => Some (Raise (ValueError (String.append "Paper not found: " center)))
  | Return (Some _) =>
    match while_loop fuel initial_state with
    | None => None
    | Some (Raise e) => Some (Raise e)
    | Some (Return s) => Some (Return (network_args s))
    end
  end.
End traversal.

(** Every round of the loop pops one queue entry, and an entry is pushed
    only for a citation row one of whose ends is the paper being marked
    visited: two entries per row at most, besides the initial one. *)
Definition loop_bound (db : Session) : nat := 2 * length (citations db) + 2.

Definition traverse (db : Session) (center_paper_id : paper_id)
    (depth max_papers : Z) : option (result NetworkArgs) :=
  traverse_with_fuel db center_paper_id depth max_papers (loop_bound db).

(** ** The schema classes (app/schemas/paper.py, lines 286-312) *)

Definition UUID := paper_id.

Module Schema.
(** [class CitationNode(BaseModel)] *)
Record CitationNode := {
  paper_id : UUID;
  title : string;
  authors : list string;
  year : option Z;
  citation_count : Z;
  influence_score : pyfloat;
}.

(** [class CitationEdge(BaseModel)] *)
Record CitationEdge := {
  source_id : UUID;
  target_id : UUID;
  context : option pystr;
  sentiment : option string;
  strength : pyfloat;
}.

(** [class CitationNetwork(BaseModel)] *)
Record CitationNetwork := {
  nodes : list CitationNode;
  edges : list CitationEdge;
  total_nodes : Z;
  total_edges : Z;
  center_paper_id : UUID;
  depth : Z;
}.
End Schema.

#[local] Unset Elimination Schemes.
(** The values handed to a model class; [PyStr] and [PyText] are the two
    forms of a [str]. *)
Inductive pyvalue :=
| PyNone
| PyBool (b : bool)
| PyInt (z : Z)
| PyFloat (x : pyfloat)
| PyStr (s : string)
| PyText (s : pystr)
| PyUUID (u : UUID)
| PyList (l : list pyvalue)
| PyDict (d : list (string * pyvalue)).
#[local] Set Elimination Schemes.

Fixpoint get_item (key : string) (d : list (string * pyvalue)) : option pyvalue :=
  match d with
  | [] => None
  | (k, v) :: d' => if String.eqb k key then Some v else get_item key d'
  end.

(** The outcome of validating a value: the errors found, or the value
    converted to the declared type. *)
Definition validated (A : Type) : Type := list line_error + A.

Definition invalid {A} (kind : error_kind) (loc : list loc_item) : validated A :=
  inl [ {| error_loc := loc; error_type := kind |} ].

Definition v_map {A B} (f : A → B) (x : validated A) : validated B :=
  match x with
  | inl errors => inl errors
  | inr a => inr (f a)
  end.

(** Validation goes on after an error: the errors of both parts are
    reported, in order. *)
Definition v_both {A B} (x : validated A) (y : validated B) : validated (A * B) :=
  match x, y with
  | inr a, inr b => inr (a, b)
  | inl errors, inr _ => inl errors
  | inr _, inl errors => inl errors
  | inl errors, inl errors' => inl (errors ++ errors')
  end.

Infix "<&>" := v_both (at level 61, left associativity).

(** The declared types. A [str] in canonical form is accepted for a [UUID]
    and an [int] for a [float]. *)
Definition v_str (loc : list loc_item) (v : pyvalue) : validated string :=
  match v with
  | PyStr s => inr s
  | _ => invalid wrong_type loc
  end.

Definition v_text (loc : list loc_item) (v : pyvalue) : validated pystr :=
  match v with
  | PyText s => inr s
  | _ => invalid wrong_type loc
  end.

Definition v_int (loc : list loc_item) (v : pyvalue) : validated Z :=
  match v with
  | PyInt z => inr z
  | _ => invalid wrong_type loc
  end.

Definition v_float (loc : list loc_item) (v : pyvalue) : validated pyfloat :=
  match v with
  | PyFloat x => inr x
  | PyInt z =>
    match float_of_int z with
    | Return x => inr x
    | Raise _ => invalid wrong_type loc
    end
  | _ => invalid wrong_type loc
  end.

Definition v_uuid (loc : list loc_item) (v : pyvalue) : validated UUID :=
  match v with
  | PyUUID u => inr u
  | PyStr s => inr s
  | _ => invalid wrong_type loc
  end.

(** [Optional[T]] *)
Definition v_optional {A} (validate : list loc_item → pyvalue → validated A)
    (loc : list loc_item) (v : pyvalue) : validated (option A) :=
  match v with
  | PyNone => inr None
  | _ => v_map Some (validate loc v)
  end.

(** The items of a list, from index [i] on. *)
Fixpoint v_items {A} (validate : list loc_item → pyvalue → validated A)
    (loc : list loc_item) (i : nat) (l : list pyvalue) : validated (list A) :=
  match l with
  | [] => inr []
  | v :: l' =>
    v_map (λ p, p.1 :: p.2)
      (validate (loc ++ [LocIndex i]) v <&> v_items validate loc (S i) l')
  end.

(** [List[T]] *)
Definition v_list {A} (validate : list loc_item → pyvalue → validated A)
    (loc : list loc_item) (v : pyvalue) : validated (list A) :=
  match v with
  | PyList l => v_items validate loc 0 l
  | _ => invalid wrong_type loc
  end.

(** A field declared without a default. *)
Definition required {A} (validate : list loc_item → pyvalue → validated A)
    (loc : list loc_item) (input : list (string * pyvalue)) (name : string) : validated A :=
  match get_item name input with
  | Some v => validate (loc ++ [LocName name]) v
  | None => invalid missing (loc ++ [LocName name])
  end.

(** A field declared with a default. *)
Definition with_default {A} (validate : list loc_item → pyvalue → validated A)
    (loc : list loc_item) (input : list (string * pyvalue)) (name : string) (default : A)
    : validated A :=
  match get_item name input with
  | Some v => validate (loc ++ [LocName name]) v
  | None => inr default
  end.

(** The fields of [CitationNode], lines 288-293. *)
Definition validate_CitationNode (loc : list loc_item) (v : pyvalue)
    : validated Schema.CitationNode :=
  match v with
  | PyDict d =>
    v_map (λ '(paper_id, title, authors, year, citation_count, influence_score),
             {| Schema.paper_id := paper_id; Schema.title := title;
                Schema.authors := authors; Schema.year := year;
                Schema.citation_count := citation_count;
                Schema.influence_score := influence_score |})
      (required v_uuid loc d "paper_id"
       <&> required v_str loc d "title"
       <&> with_default (v_list v_str) loc d "authors" []
       <&> with_default (v_optional v_int) loc d "year" None
       <&> with_default v_int loc d "citation_count" 0
       <&> with_default v_float loc d "influence_score" float_0_0)
  | _ => invalid wrong_type loc
  end.

(** The fields of [CitationEdge], lines 298-302. *)
Definition validate_CitationEdge (loc : list loc_item) (v : pyvalue)
    : validated Schema.CitationEdge :=
  match v with
  | PyDict d =>
    v_map (λ '(source_id, target_id, context, sentiment, strength),
             {| Schema.source_id := source_id; Schema.target_id := target_id;
                Schema.context := context; Schema.sentiment := sentiment;
                Schema.strength := strength |})
      (required v_uuid loc d "source_id"
       <&> required v_uuid loc d "target_id"
       <&> with_default (v_optional v_text) loc d "context" None
       <&> with_default (v_optional v_str) loc d "sentiment" None
       <&> with_default v_float loc d "strength" float_1_0)
  | _ => invalid wrong_type loc
  end.

(** The fields of [CitationNetwork], lines 307-312. *)
Definition validate_CitationNetwork (kwargs : list (string * pyvalue))
    : validated Schema.CitationNetwork :=
  v_map (λ '(nodes, edges, total_nodes, total_edges, center_paper_id, depth),
           {| Schema.nodes := nodes; Schema.edges := edges;
              Schema.total_nodes := total_nodes; Schema.total_edges := total_edges;
              Schema.center_paper_id := center_paper_id; Schema.depth := depth |})
    (required (v_list validate_CitationNode) [] kwargs "nodes"
     <&> required (v_list validate_CitationEdge) [] kwargs "edges"
     <&> required v_int [] kwargs "total_nodes"
     <&> required v_int [] kwargs "total_edges"
     <&> required v_uuid [] kwargs "center_paper_id"
     <&> with_default v_int [] kwargs "depth" 1).

(** The call [CitationNetwork(...)] with the keyword arguments [kwargs]. *)
Definition new_CitationNetwork (kwargs : list (string * pyvalue))
    : result Schema.CitationNetwork :=
  match validate_CitationNetwork kwargs with
  | inl errors => Raise (ValidationError "CitationNetwork" errors)
  | inr network => Return network
  end.

(** ** The call of the constructor, lines 113-120 *)

Definition option_value {A} (f : A → pyvalue) (o : option A) : pyvalue :=
  match o with
  | Some a => f a
  | None => PyNone
  end.

(** The dict of lines 55-64 with its keys. *)
Definition node_dict (n : Node) : pyvalue :=
  PyDict [("id", PyStr (node_id n));
          ("title", PyStr (node_title n));
          ("authors", PyList (PyStr <$> node_authors n));
          ("publication_year", option_value PyInt (node_publication_year n));
          ("citation_count", option_value PyInt (node_citation_count n));
          ("influence_score", option_value PyFloat (node_influence_score n));
          ("is_center", PyBool (is_center n));
          ("depth", PyInt (node_depth n))].

(** The dict of lines 77-83 and 98-104 with its keys. *)
Definition edge_dict (e : Edge) : pyvalue :=
  PyDict [("source", PyStr (source e));
          ("target", PyStr (target e));
          ("strength", option_value PyFloat (edge_strength e));
          ("context", PyText (edge_context e));
          ("type", PyStr (edge_type e))].

Definition keyword_arguments (args : NetworkArgs) : list (string * pyvalue) :=
  [("nodes", PyList (node_dict <$> nodes args));
   ("edges", PyList (edge_dict <$> edges args));
   ("center_paper_id", PyUUID (center_paper_id args));
   ("depth", PyInt (depth args));
   ("total_papers", PyInt (total_papers args));
   ("total_citations", PyInt (total_citations args))].

(** Lines 29-131 with the loop given [fuel]: the traversal, then the call
    of the constructor with the arguments it arrived at. The handler logs
    and re-raises. *)
Definition build_with_fuel (db : Session) (center_paper_id : paper_id)
    (depth max_papers : Z) (fuel : nat) : option (result Schema.CitationNetwork) :=
  match traverse_with_fuel db center_paper_id depth max_papers fuel with
  | None => None
  | Some (Raise e) => Some (Raise e)
  | Some (Return args) => Some (new_CitationNetwork (keyword_arguments args))
  end.

Definition build_citation_network (db : Session) (center_paper_id : paper_id)
    (depth max_papers : Z) : option (result Schema.CitationNetwork) :=
  build_with_fuel db center_paper_id depth max_papers (loop_bound db).

(** *** The errors of the call in closed form *)

Definition errors_of {A} (x : validated A) : list line_error :=
  match x with
  | inl errors => errors
  | inr _ => []
  end.

Definition field_error (kind : error_kind) (loc : list loc_item) (name : string) : line_error :=
  {| error_loc := loc ++ [LocName name]; error_type := kind |}.

(** A node dict has no key [paper_id]; its count and its score are no
    numbers when the paper row has none. *)
Definition node_errors (loc : list loc_item) (n : Node) : list line_error :=
  [field_error missing loc "paper_id"]
  ++ match node_citation_count n with
     | Some _ => []
     | None => [field_error wrong_type loc "citation_count"]
     end
  ++ match node_influence_score n with
     | Some _ => []
     | None => [field_error wrong_type loc "influence_score"]
     end.

(** An edge dict has no keys [source_id] and [target_id]; its strength is
    no number when the citation row has none. *)
Definition edge_errors (loc : list loc_item) (e : Edge) : list line_error :=
  [field_error missing loc "source_id"; field_error missing loc "target_id"]
  ++ match edge_strength e with
     | Some _ => []
     | None => [field_error wrong_type loc "strength"]
     end.

Definition node_missing (i : nat) (name : string) : line_error :=
  field_error missing [LocName "nodes"; LocIndex i] name.

Definition edge_missing (i : nat) (name : string) : line_error :=
  field_error missing [LocName "edges"; LocIndex i] name.

Definition argument_missing (name : string) : line_error :=
  field_error missing [] name.

(** The call passes no [total_nodes] and no [total_edges]. *)
Definition call_errors (args : NetworkArgs) : list line_error :=
  mjoin (imap (λ i, node_errors [LocName "nodes"; LocIndex i]) (nodes args))
  ++ mjoin (imap (λ i, edge_errors [LocName "edges"; LocIndex i]) (edges args))
  ++ [field_error missing [] "total_nodes"; field_error missing [] "total_edges"].

(** ** The influence calculator *)

Record Metrics := {
  metrics_paper_id : paper_id;
  direct_citations : Z;
  second_order_citations : Z;
  h_index : Z;
  metrics_influence_score : pyfloat;
  percentile_rank : pyfloat;
  field_normalized_score : pyfloat;
}.

(** The dict [calculate_paper_influence] returns: [{}] or the metrics.
    The entries [publication_age_years] and [citation_rate_per_year], which
    depend on the wall clock, are left out; computing them raises no
    exception. *)
Inductive influence_dict :=
| EmptyDict
| MetricsDict (m : Metrics).

(** [.count()] of the citations whose cited paper is [pid] *)
Definition query_direct_count (db : Session) (pid : paper_id) : result Z :=
  run_query db (QCountOfCited pid)
    (Z.of_nat (length (rows_citing db pid))).

(** [.count()] of the citations whose cited paper is among the papers
    citing [pid] *)
Definition query_second_order_count (db : Session) (pid : paper_id) : result Z :=
  let citers := citing_paper_id <$> rows_citing db pid in
  run_query db (QCountSecondOrder pid)
    (Z.of_nat (length (filter (λ c, cited_paper_id c ∈ citers) (citations db)))).

(** [db.query(Paper).join(Citation, Paper.id == Citation.citing_paper_id)
       .filter(Citation.cited_paper_id == UUID(pid)).all()]:
    the query returns each selected paper once. *)
Definition query_citing_papers (db : Session) (pid : paper_id) : result (list Paper) :=
  run_query db (QCitingPapers pid)
    (filter (λ p, Exists (λ c, citing_paper_id c = id p ∧ cited_paper_id c = pid) (citations db))
            (papers db)).

(** [[p.citation_count for p in citing_papers]] followed by the sort and the
    comparisons with an [int]: a [None] among the counts is a [TypeError]. *)
Fixpoint citation_counts (ps : list Paper) : result (list Z) :=
  match ps with
  | [] => Return []
  | p :: ps' =>
    match citation_count p with
    | None => Raise (TypeError "'>=' not supported between instances of 'NoneType' and 'int'")
    | Some n => counts ←r citation_counts ps'; Return (n :: counts)
    end
  end.

(** [list.sort(reverse=True)] on integers *)
Definition sort_reverse (l : list Z) : list Z := merge_sort Z.ge l.

(** The loop of lines 246-251; [i] is the index [enumerate] has reached and
    [h] the current value of [h_index]. *)
Fixpoint h_index_loop (i h : Z) (counts : list Z) : Z :=
  match counts with
  | [] => h
  | count :: counts' =>
    if i + 1 <=? count then h_index_loop (i + 1) (i + 1) counts' else h
  end.

Definition compute_h_index (sorted_counts : list Z) : Z := h_index_loop 0 0 sorted_counts.

(** [min((direct * 0.5 + second_order * 0.3 + h_index * 0.2) / 100, 1.0)] *)
Definition compute_influence_score (direct second_order h : Z) : result pyfloat :=
  a ←r int_mul_float direct float_0_5;
  b ←r int_mul_float second_order float_0_3;
  c ←r int_mul_float h float_0_2;
  q ←r float_div_int (SF64add (SF64add a b) c) 100;
  Return (py_min q float_1_0).

(** Lines 217-278: the body of the [try]. *)
Definition influence_body (db : Session) (pid : paper_id) : result influence_dict :=
  paper ←r query_paper db pid;
  match paper with
  | None => Raise (ValueError (String.append "Paper not found: " pid))
  | Some _ =>
    direct ←r query_direct_count db pid;
    second_order ←r query_second_order_count db pid;
    citing_papers ←r query_citing_papers db pid;
    counts ←r citation_counts citing_papers;
    let h := compute_h_index (sort_reverse counts) in
    score ←r compute_influence_score direct second_order h;
    Return (MetricsDict
      {| metrics_paper_id := pid;
         direct_citations := direct;
         second_order_citations := second_order;
         h_index := h;
         metrics_influence_score := score;
         percentile_rank := float_0_0;
         field_normalized_score := float_0_0 |})
  end.

(** The handler of line 280 logs the exception and returns [{}]. *)
Definition calculate_paper_influence (db : Session) (pid : paper_id) : result influence_dict :=
  try_except (influence_body db pid) (λ _, Return EmptyDict).

(** ** The rounds of the loop as a relation

    What one round of the loop does to the state when no query raises. The
    two [for] loops are given by the lists they append. *)

Definition citing_edges (current : paper_id) (rows : list Citation) : list Edge :=
  (λ c, make_edge (citing_paper_id c) current c) <$> rows.

Definition cited_edges (current : paper_id) (rows : list Citation) : list Edge :=
  (λ c, make_edge current (cited_paper_id c) c) <$> rows.

Definition citing_pushes (visited : gset paper_id) (current_depth : Z)
    (rows : list Citation) : list (paper_id * Z) :=
  (λ c, (citing_paper_id c, current_depth + 1)) <$>
    filter (λ c, citing_paper_id c ∉ visited) rows.

Definition cited_pushes (visited : gset paper_id) (current_depth : Z)
    (rows : list Citation) : list (paper_id * Z) :=
  (λ c, (cited_paper_id c, current_depth + 1)) <$>
    filter (λ c, cited_paper_id c ∉ visited) rows.

Section rounds.
Variable db : Session.
Variable center : paper_id.
Variable max_depth : Z.

Inductive step : State → State → Prop :=
| step_skip current d queue ns es visited :
    current ∈ visited ∨ max_depth < d →
    step {| st_nodes := ns; st_edges := es; st_visited := visited;
            st_queue := (current, d) :: queue |}
         {| st_nodes := ns; st_edges := es; st_visited := visited;
            st_queue := queue |}
| step_missing current d queue ns es visited :
    current ∉ visited → d ≤ max_depth →
    paper_row db current = None →
    step {| st_nodes := ns; st_edges := es; st_visited := visited;
            st_queue := (current, d) :: queue |}
         {| st_nodes := ns; st_edges := es; st_visited := {[current]} ∪ visited;
            st_queue := queue |}
| step_leaf current d queue ns es visited paper :
    current ∉ visited → d ≤ max_depth → max_depth ≤ d →
    paper_row db current = Some paper →
    step {| st_nodes := ns; st_edges := es; st_visited := visited;
            st_queue := (current, d) :: queue |}
         {| st_nodes := dict_set current (make_node center current d paper) ns;
            st_edges := es; st_visited := {[current]} ∪ visited;
            st_queue := queue |}
| step_expand current d queue ns es visited paper :
    current ∉ visited → d < max_depth →
    paper_row db current = Some paper →
    step {| st_nodes := ns; st_edges := es; st_visited := visited;
            st_queue := (current, d) :: queue |}
         {| st_nodes := dict_set current (make_node center current d paper) ns;
            st_edges := es ++ citing_edges current (rows_citing db current)
                           ++ cited_edges current (rows_cited_by db current);
            st_visited := {[current]} ∪ visited;
            st_queue := queue
              ++ citing_pushes ({[current]} ∪ visited) d (rows_citing db current)
              ++ cited_pushes ({[current]} ∪ visited) d (rows_cited_by db current) |}.
End rounds.

(** The citation rows one of whose ends is not visited yet, counted per
    end, plus the length of the queue: the quantity every round lowers. *)
Definition pending (visited : gset paper_id) (rows : list Citation) : nat :=
  (length (filter (λ c, cited_paper_id c ∉ visited) rows)
   + length (filter (λ c, citing_paper_id c ∉ visited) rows))%nat.

Definition potential (db : Session) (s : State) : nat :=
  (length (st_queue s) + pending (st_visited s) (citations db))%nat.

(** ** Auxiliary notions used in the statements *)

(** The foreign keys of the citations table: both ends of every citation
    row are papers of the papers table. *)
Definition foreign_keys_hold (db : Session) : Prop :=
  Forall (λ c, is_Some (paper_row db (citing_paper_id c))
               ∧ is_Some (paper_row db (cited_paper_id c))) (citations db).

(** A session none of whose queries raises. *)
Definition never_fails (db : Session) : Prop := ∀ q, failure db q = None.

(** The ids of the nodes among the arguments of the constructor. *)
Definition node_ids (net : NetworkArgs) : list paper_id := node_id <$> nodes net.

(** The paper the next round of the loop marks visited, if any: the head of
    the queue, unless the round drops it. *)
Definition marks_now (max_depth : Z) (s : State) : list paper_id :=
  match st_queue s with
  | (current, d) :: _ =>
    if bool_decide (current ∈ st_visited s) || (max_depth <? d) then [] else [current]
  | [] => []
  end.

(** The papers the loop marks visited, in the order of the marking, when it
    runs from [s] for at most [fuel] tests of its condition. *)
Fixpoint marked (db : Session) (center : paper_id) (max_depth max_papers : Z)
    (fuel : nat) (s : State) : list paper_id :=
  match fuel with
  | O => []
  | S fuel' =>
    if loop_cond max_papers s then
      match loop_body db center max_depth s with
      | Return s' => marks_now max_depth s ++ marked db center max_depth max_papers fuel' s'
      | Raise _ => marks_now max_depth s
      end
    else []
  end.

(** ** Example stores *)

Definition example_paper (pid : paper_id) (count : Z) : Paper :=
  {| id := pid; title := String.append "Paper " pid; authors := Some [[("name", "Ada")]];
     publication_year := Some 2020; citation_count := Some count;
     influence_score := Some float_0_5 |}.

Definition example_citation (citing cited : paper_id) : Citation :=
  {| citing_paper_id := citing; cited_paper_id := cited;
     context := Some (pystr_of_string "as shown in"); strength := Some float_1_0 |}.

Definition no_failure : query → option string := λ _, None.

(** Paper A is cited by B and by C, and B is cited by D. *)
Definition scenario_store : Session :=
  {| papers := [example_paper "A" 2; example_paper "B" 1;
                example_paper "C" 0; example_paper "D" 0];
     citations := [example_citation "B" "A"; example_citation "C" "A";
                   example_citation "D" "B"];
     failure := no_failure |}.

(** The same tables behind a session whose count queries raise. *)
Definition scenario_store_counts_down : Session :=
  {| papers := papers scenario_store;
     citations := citations scenario_store;
     failure := λ q, match q with
                     | QCountOfCited _ | QCountSecondOrder _ => Some "connection lost"
                     | _ => None
                     end |}.

(** A citation row whose citing paper has no row in the papers table. *)
Definition dangling_citation_store : Session :=
  {| papers := [example_paper "A" 1];
     citations := [example_citation "X" "A"];
     failure := no_failure |}.

(** A cycle and a self-citation. *)
Definition cyclic_store : Session :=
  {| papers := [example_paper "A" 2; example_paper "B" 1];
     citations := [example_citation "A" "A"; example_citation "A" "B";
                   example_citation "B" "A"];
     failure := no_failure |}.

(** A single citation: B cites A. *)
Definition single_citation_store : Session :=
  {| papers := [example_paper "A" 1; example_paper "B" 0];
     citations := [example_citation "B" "A"];
     failure := no_failure |}.

(** The h-index statistic in the words of the specification: [h] is the
    largest 1-based index i such that the i-th count of the list is at
    least i, and 0 when no index qualifies. *)
Definition qualifies (sorted : list Z) (i : Z) : Prop :=
  1 ≤ i ∧ ∃ x, sorted !! Z.to_nat (i - 1) = Some x ∧ i ≤ x.

Definition largest_qualifying_index (sorted : list Z) (h : Z) : Prop :=
  (h = 0 ∨ qualifies sorted h) ∧ ∀ i, qualifies sorted i → i ≤ h.

(** The queries [calculate_paper_influence] issues for a paper. *)
Definition influence_queries (pid : paper_id) : list query :=
  [QPaperFirst pid; QCountOfCited pid; QCountSecondOrder pid; QCitingPapers pid].

(** Paper P is cited by five papers whose citation counts are 5, 10, 3, 8
    and 4, in table order. *)
Definition five_citers_store : Session :=
  {| papers := [example_paper "P" 5; example_paper "Q1" 5; example_paper "Q2" 10;
                example_paper "Q3" 3; example_paper "Q4" 8; example_paper "Q5" 4];
     citations := [example_citation "Q1" "P"; example_citation "Q2" "P";
                   example_citation "Q3" "P"; example_citation "Q4" "P";
                   example_citation "Q5" "P"];
     failure := no_failure |}.

(** A float that is not a NaN and whose sign bit is [s]. *)
Definition has_sign (s : bool) (f : pyfloat) : Prop :=
  match f with
  | S754_zero s' | S754_infinity s' | S754_finite s' _ _ => s' = s
  | S754_nan => False
  end.

(** ** Invariants of the traversal loop *)

(** The size of [nodes] and the depth of every node stay within the limits. *)
Definition bounds_inv (max_depth max_papers : Z) (s : State) : Prop :=
  Z.of_nat (length (st_nodes s)) ≤ max_papers
  ∧ Forall (λ n, node_depth n ≤ max_depth) (dict_values (st_nodes s)).

(** The nodes flagged as the center of the traversal. *)
Definition center_nodes (l : list Node) : list Node := filter (λ n, is_center n = true) l.

(** The center paper is visited and is the only node flagged as center; the
    papers of all nodes are visited. *)
Definition center_present (center : paper_id) (ns : list (paper_id * Node))
    (visited : gset paper_id) : Prop :=
  center ∈ visited
  ∧ (∀ k, k ∈ dict_keys ns → k ∈ visited)
  ∧ ∃ n, center_nodes (dict_values ns) = [n] ∧ node_id n = center ∧ node_depth n = 0.

(** Before the first round the state is the initial one; afterwards the
    center node is present. *)
Definition center_inv (center : paper_id) (s : State) : Prop :=
  s = initial_state center ∨ center_present center (st_nodes s) (st_visited s).

(** The key of every entry of [nodes] is the id of its node. *)
Definition ids_inv (s : State) : Prop :=
  Forall (λ kn, node_id kn.2 = kn.1) (st_nodes s).

(** The paper being expanded is an end of each of its edges. *)
Definition expanded_end_inv (s : State) : Prop :=
  ∀ e, e ∈ st_edges s →
    source e ∈ dict_keys (st_nodes s) ∨ target e ∈ dict_keys (st_nodes s).

(** An end of an edge is a node already, or waits in the queue at a depth
    within the limit. *)
Definition end_accounted (max_depth : Z) (ns : list (paper_id * Node))
    (queue : list (paper_id * Z)) (x : paper_id) : Prop :=
  x ∈ dict_keys ns ∨ ∃ k, (x, k) ∈ queue ∧ k ≤ max_depth.

(** Visited papers are nodes, queued papers have a row in the papers table,
    and both ends of every edge are accounted for. *)
Definition closure_inv (db : Session) (max_depth : Z) (s : State) : Prop :=
  (∀ x, x ∈ st_visited s → x ∈ dict_keys (st_nodes s))
  ∧ (∀ x k, (x, k) ∈ st_queue s → is_Some (paper_row db x))
  ∧ (∀ e, e ∈ st_edges s →
       end_accounted max_depth (st_nodes s) (st_queue s) (source e)
       ∧ end_accounted max_depth (st_nodes s) (st_queue s) (target e)).

(** With depth 0: before the first round the state is the initial one,
    afterwards the center is the only node, and nothing is queued. *)
Definition depth_zero_inv (center : paper_id) (s : State) : Prop :=
  s = initial_state center
  ∨ ∃ n, st_nodes s = [(center, n)] ∧ node_id n = center ∧ is_center n = true
         ∧ node_depth n = 0 ∧ st_edges s = [] ∧ st_queue s = [].

(** ** Notions used for the further properties of the traversal *)

(** The edge the traversal records for a citation row. *)
Definition edge_of_row (c : Citation) : Edge :=
  make_edge (citing_paper_id c) (cited_paper_id c) c.

(** A citation row has the paper [x] at one of its ends. *)
Definition incident (x : paper_id) (c : Citation) : Prop :=
  citing_paper_id c = x ∨ cited_paper_id c = x.

(** The papers of all nodes are visited, and no paper has two nodes. *)
Definition keys_inv (s : State) : Prop :=
  (∀ k, k ∈ dict_keys (st_nodes s) → k ∈ st_visited s)
  ∧ NoDup (dict_keys (st_nodes s)).

(** Every node is made from the row of its paper. *)
Definition nodes_inv (db : Session) (center : paper_id) (s : State) : Prop :=
  ∀ k n, (k, n) ∈ st_nodes s →
    ∃ paper, paper_row db k = Some paper ∧ n = make_node center k (node_depth n) paper.

(** Every edge is the edge of a citation row one of whose ends is a node
    below the depth limit, and all rows at such a node have their edge. *)
Definition edges_inv (db : Session) (max_depth : Z) (s : State) : Prop :=
  (∀ e, e ∈ st_edges s →
     ∃ c, c ∈ citations db ∧ e = edge_of_row c
          ∧ ∃ k n, (k, n) ∈ st_nodes s ∧ node_depth n < max_depth ∧ incident k c)
  ∧ (∀ k n c, (k, n) ∈ st_nodes s → node_depth n < max_depth →
       c ∈ citations db → incident k c → edge_of_row c ∈ st_edges s).

(** Nothing was added: the state of a traversal that never accepted a
    paper. *)
Definition empty_inv (center : paper_id) (s : State) : Prop :=
  st_nodes s = [] ∧ st_edges s = []
  ∧ (st_queue s = [(center, 0)] ∧ st_visited s = ∅ ∨ st_queue s = []).

(** Two papers are adjacent when a citation row joins them, in either
    direction. *)
Definition adjacent (db : Session) (x y : paper_id) : Prop :=
  ∃ c, c ∈ citations db
    ∧ (citing_paper_id c = x ∧ cited_paper_id c = y
       ∨ citing_paper_id c = y ∧ cited_paper_id c = x).

(** [walk db x y k]: [y] is reached from [x] along [k] citation rows. *)
Inductive walk (db : Session) (x : paper_id) : paper_id → Z → Prop :=
| walk_here : walk db x x 0
| walk_step y z k : walk db x y k → adjacent db y z → walk db x z (k + 1).

(** The depths in the queue never decrease, and differ by one at most. *)
Fixpoint levelled (queue : list (paper_id * Z)) : Prop :=
  match queue with
  | [] => True
  | e :: queue' => (∀ e', e' ∈ queue' → e.2 ≤ e'.2 ≤ e.2 + 1) ∧ levelled queue'
  end.

(** The invariant of a breadth-first traversal: the center is visited once
    the first round is over; the queue is levelled and holds papers with a
    walk of the queued length; the depth of a node is the length of a
    shortest walk from the center; the neighbours of a node below the depth
    limit are visited or queued one level deeper. *)
Definition bfs_inv (db : Session) (center : paper_id) (max_depth : Z) (s : State) : Prop :=
  (center ∈ st_visited s ∨ st_queue s = [(center, 0)] ∧ st_visited s = ∅)
  ∧ levelled (st_queue s)
  ∧ (∀ x k, (x, k) ∈ st_queue s → walk db center x k ∧ k ≤ max_depth)
  ∧ (∀ x n, (x, n) ∈ st_nodes s →
       walk db center x (node_depth n) ∧ ∀ j, walk db center x j → node_depth n ≤ j)
  ∧ (∀ x n y, (x, n) ∈ st_nodes s → node_depth n < max_depth → adjacent db x y →
       y ∈ st_visited s ∨ (y, node_depth n + 1) ∈ st_queue s).

(** ** The lists of citing and referenced papers

    [get_citing_papers] and [get_referenced_papers], and the session they
    run in: the tables of [Session], the table of user-paper relationships
    and a failure oracle for the queries these functions and the endpoints
    issue. Negative limits are rejected by the database (PostgreSQL),
    which the session reports as a failed query. The primary key of the
    papers table pairs a citation row with at most one paper in a join. *)

Inductive ReadingStatus := SAVED | READING | COMPLETED | ARCHIVED.

Record UserPaper := {
  user_paper_user_id : string;
  user_paper_paper_id : paper_id;
  user_paper_status : ReadingStatus;
}.

Inductive library_query :=
| QCitingJoin (pid : paper_id) (limit : Z)
| QReferencedJoin (pid : paper_id) (limit : Z)
| QRelatedPaper (pid : paper_id)
| QUserPaperFirst (user_id : string) (pid : paper_id).

Record Library := {
  session : Session;
  user_papers : list UserPaper;
  library_failure : library_query → option string;
}.

Definition run_library_query {A} (lib : Library) (q : library_query) (rows : A) : result A :=
  match library_failure lib q with
  | Some msg => Raise (StoreError msg)
  | None => Return rows
  end.

(** [.limit(limit)] *)
Definition sql_limit {A} (limit : Z) (rows : list A) : result (list A) :=
  if limit <? 0 then Raise (StoreError "LIMIT must not be negative")
  else Return (take (Z.to_nat limit) rows).

(** The inner join of citation rows with the papers table on one end of
    the row: the rows whose paper at that end exists, with that paper. *)
Definition join_papers (db : Session) (other_end : Citation → paper_id)
    (rows : list Citation) : list (Citation * Paper) :=
  omap (λ c, p ← paper_row db (other_end c); Some (c, p)) rows.

(** [db.query(Citation).join(Paper, Citation.citing_paper_id == Paper.id)
       .filter(Citation.cited_paper_id == UUID(pid)).limit(limit).all()] *)
Definition query_citing_join (lib : Library) (pid : paper_id) (limit : Z)
    : result (list (Citation * Paper)) :=
  rows ←r sql_limit limit
            (join_papers (session lib) citing_paper_id (rows_citing (session lib) pid));
  run_library_query lib (QCitingJoin pid limit) rows.

(** [db.query(Citation).join(Paper, Citation.cited_paper_id == Paper.id)
       .filter(Citation.citing_paper_id == UUID(pid)).limit(limit).all()] *)
Definition query_referenced_join (lib : Library) (pid : paper_id) (limit : Z)
    : result (list (Citation * Paper)) :=
  rows ←r sql_limit limit
            (join_papers (session lib) cited_paper_id (rows_cited_by (session lib) pid));
  run_library_query lib (QReferencedJoin pid limit) rows.

(** [citation.citing_paper] and [citation.cited_paper]: the paper the row
    refers to, loaded when the attribute is read. *)
Definition load_related (lib : Library) (paper : Paper) : result Paper :=
  run_library_query lib (QRelatedPaper (id paper)) paper.

(** The dict appended for a citation row and the paper at its other end. *)
Record PaperEntry := {
  entry_paper_id : paper_id;
  entry_title : string;
  entry_authors : list string;
  entry_publication_year : option Z;
  entry_citation_count : option Z;
  citation_context : option pystr;
  citation_strength : option pyfloat;
}.

Definition make_entry (citation : Citation) (paper : Paper) : PaperEntry :=
  {| entry_paper_id := id paper;
     entry_title := title paper;
     entry_authors := map (dict_get "name" "") (default [] (authors paper));
     entry_publication_year := publication_year paper;
     entry_citation_count := citation_count paper;
     citation_context := context citation;
     citation_strength := strength citation |}.

(** The [for] loop of lines 151-162 and 189-200. *)
Fixpoint collect_entries (lib : Library) (rows : list (Citation * Paper))
    : result (list PaperEntry) :=
  match rows with
  | [] => Return []
  | (citation, paper) :: rows' =>
    related ←r load_related lib paper;
    entries ←r collect_entries lib rows';
    Return (make_entry citation related :: entries)
  end.

(** Lines 141-169. *)
Definition get_citing_papers (lib : Library) (pid : paper_id) (limit : Z)
    : result (list PaperEntry) :=
  try_except
    (citations ←r query_citing_join lib pid limit; collect_entries lib citations)
    (λ _, Return []).

(** Lines 179-207. *)
Definition get_referenced_papers (lib : Library) (pid : paper_id) (limit : Z)
    : result (list PaperEntry) :=
  try_except
    (citations ←r query_referenced_join lib pid limit; collect_entries lib citations)
    (λ _, Return []).

(** ** The user-paper lookup (app/db/queries/paper_queries.py) *)

(** [get_user_paper], lines 150-161: the first relationship row of the user
    and the paper, and [None] when there is none or the query raises. *)
Definition get_user_paper (lib : Library) (user_id : string) (pid : paper_id)
    : option UserPaper :=
  match library_failure lib (QUserPaperFirst user_id pid) with
  | Some _ => None
  | None =>
    head (filter (λ up, user_paper_user_id up = user_id ∧ user_paper_paper_id up = pid)
                 (user_papers lib))
  end.

(** ** The endpoints (app/api/v1/citations.py)

    An endpoint returns a body or raises [HTTPException]; [user_id] is the
    id of the authenticated user. *)

Inductive response (A : Type) :=
| Response (body : A)
| HTTPException (status_code : Z) (detail : string).
Arguments Response {A} body.
Arguments HTTPException {A} status_code detail.

Definition access_denied {A} : response A :=
  HTTPException 403 "Access denied to this paper".

(** Lines 20-57. *)
Definition get_citation_network (lib : Library) (user_id : string) (pid : paper_id)
    (depth max_papers : Z) : option (response Schema.CitationNetwork) :=
  match get_user_paper lib user_id pid with
  | None => Some access_denied
  | Some _ =>
    match build_citation_network (session lib) pid depth max_papers with
    | None => None
    | Some (Return network) => Some (Response network)
    | Some (Raise _) => Some (HTTPException 500 "Failed to retrieve citation network")
    end
  end.

(** Lines 60-94. *)
Definition get_citing_papers_endpoint (lib : Library) (user_id : string) (pid : paper_id)
    (limit : Z) : response (list PaperEntry) :=
  match get_user_paper lib user_id pid with
  | None => access_denied
  | Some _ =>
    match get_citing_papers lib pid limit with
    | Return citing_papers => Response citing_papers
    | Raise _ => HTTPException 500 "Failed to retrieve citing papers"
    end
  end.

(** Lines 97-131. *)
Definition get_referenced_papers_endpoint (lib : Library) (user_id : string)
    (pid : paper_id) (limit : Z) : response (list PaperEntry) :=
  match get_user_paper lib user_id pid with
  | None => access_denied
  | Some _ =>
    match get_referenced_papers lib pid limit with
    | Return referenced_papers => Response referenced_papers
    | Raise _ => HTTPException 500 "Failed to retrieve referenced papers"
    end
  end.

(** Lines 134-167. *)
Definition get_paper_influence (lib : Library) (user_id : string) (pid : paper_id)
    : response influence_dict :=
  match get_user_paper lib user_id pid with
  | None => access_denied
  | Some _ =>
    match calculate_paper_influence (session lib) pid with
    | Return influence_metrics => Response influence_metrics
    | Raise _ => HTTPException 500 "Failed to retrieve paper influence"
    end
  end.

(** A library none of whose queries raises. *)
Definition library_never_fails (lib : Library) : Prop :=
  never_fails (session lib) ∧ ∀ q, library_failure lib q = None.

(** Example: the scenario store with the library of two users. *)
Definition scenario_library : Library :=
  {| session := scenario_store;
     user_papers := [ {| user_paper_user_id := "ann"; user_paper_paper_id := "A";
                         user_paper_status := READING |};
                      {| user_paper_user_id := "bob"; user_paper_paper_id := "B";
                         user_paper_status := SAVED |} ];
     library_failure := λ _, None |}.

(** The same library when the relationship lookup raises. *)
Definition scenario_library_lookup_down : Library :=
  {| session := scenario_store;
     user_papers := user_papers scenario_library;
     library_failure := λ q, match q with
                             | QUserPaperFirst _ _ => Some "connection lost"
                             | _ => None
                             end |}.

(** The primary key of the papers table: no two rows with the same id. *)
Definition primary_key_holds (db : Session) : Prop := NoDup (id <$> papers db).

(** The nodes are in layer order: their depths never decrease along the
    list, none is negative, and none exceeds a queued depth. *)
Definition layer_inv (s : State) : Prop :=
  levelled (st_queue s)
  ∧ (∀ e, e ∈ st_queue s → 0 ≤ e.2)
  ∧ Sorted Z.le (node_depth <$> dict_values (st_nodes s))
  ∧ (∀ n, n ∈ dict_values (st_nodes s) → 0 ≤ node_depth n)
  ∧ (∀ n e, n ∈ dict_values (st_nodes s) → e ∈ st_queue s → node_depth n ≤ e.2).

(** The edges recorded so far and the row ends still unvisited do not
    exceed two per citation row. *)
Definition edge_count_inv (db : Session) (s : State) : Prop :=
  (length (st_edges s) + pending (st_visited s) (citations db)
   ≤ 2 * length (citations db))%nat.

(** * Properties *)

(** ** The error monad *)

Lemma bind_Return {A B} (m : result A) (k : A → result B) b :
  bind m k = Return b → ∃ a, m = Return a ∧ k a = Return b.
Proof. destruct m as [a|e]; simpl; [eauto | discriminate]. Qed.

Lemma run_query_Return {A} db q (rows r : A) :
  run_query db q rows = Return r → failure db q = None ∧ r = rows.
Proof. unfold run_query. destruct (failure db q); [discriminate | by intros [= <-]]. Qed.

(** ** Dicts *)

Lemma dict_set_length {V} k (v : V) d :
  (length d ≤ length (dict_set k v d) ≤ S (length d))%nat.
Proof.
  induction d as [|[k' v'] d IH]; simpl; [lia|].
  destruct (decide (k' = k)); simpl; lia.
Qed.

Lemma dict_set_fresh {V} k (v : V) d :
  k ∉ dict_keys d → dict_set k v d = d ++ [(k, v)].
Proof.
  unfold dict_keys. induction d as [|[k' v'] d IH]; simpl; [done|].
  intros Hk. apply not_elem_of_cons in Hk as [Hne Hk].
  destruct (decide (k' = k)); [congruence | by rewrite IH].
Qed.

Lemma elem_of_dict_set {V} k (v : V) d x :
  x ∈ dict_set k v d → x = (k, v) ∨ x ∈ d.
Proof.
  induction d as [|[k' v'] d IH]; simpl.
  - intros ->%list_elem_of_singleton. by left.
  - destruct (decide (k' = k)); intros [->|Hx]%elem_of_cons; rewrite ?elem_of_cons; auto.
    destruct (IH Hx); auto.
Qed.

Lemma dict_keys_dict_set {V} k (v : V) d x :
  x ∈ dict_keys (dict_set k v d) ↔ x = k ∨ x ∈ dict_keys d.
Proof.
  unfold dict_keys. induction d as [|[k' v'] d IH]; simpl.
  - rewrite list_elem_of_singleton, elem_of_nil. tauto.
  - destruct (decide (k' = k)) as [->|]; simpl; rewrite !elem_of_cons; [tauto|].
    rewrite IH. tauto.
Qed.

(** ** The [for] loops in closed form *)

Lemma foldl_citing_round visited current d rows es queue :
  foldl (citing_round visited current d) (es, queue) rows
  = (es ++ citing_edges current rows, queue ++ citing_pushes visited d rows).
Proof.
  revert es queue. induction rows as [|c rows IH]; intros es queue; simpl.
  - by rewrite !app_nil_r.
  - unfold citing_round at 2. simpl. rewrite IH.
    unfold citing_edges, citing_pushes. rewrite filter_cons. simpl.
    case_bool_decide; case_decide; try done; simpl; by rewrite <- !app_assoc.
Qed.

Lemma foldl_cited_round visited current d rows es queue :
  foldl (cited_round visited current d) (es, queue) rows
  = (es ++ cited_edges current rows, queue ++ cited_pushes visited d rows).
Proof.
  revert es queue. induction rows as [|c rows IH]; intros es queue; simpl.
  - by rewrite !app_nil_r.
  - unfold cited_round at 2. simpl. rewrite IH.
    unfold cited_edges, cited_pushes. rewrite filter_cons. simpl.
    case_bool_decide; case_decide; try done; simpl; by rewrite <- !app_assoc.
Qed.

(** A round of the loop that does not raise is a [step]. *)
Lemma loop_body_step db center max_depth s s' :
  loop_body db center max_depth s = Return s' → step db center max_depth s s'.
Proof.
  destruct s as [ns es visited queue]. unfold loop_body. simpl.
  destruct queue as [|[current d] queue]; [discriminate|].
  destruct (bool_decide (current ∈ visited)) eqn:Hvis; simpl.
  { intros [= <-]. apply step_skip. left. by apply bool_decide_eq_true in Hvis. }
  apply bool_decide_eq_false in Hvis.
  destruct (max_depth <? d) eqn:Hd.
  { intros [= <-]. apply step_skip. right. by apply Z.ltb_lt. }
  apply Z.ltb_ge in Hd.
  intros (paper & Hq & Hk)%bind_Return.
  apply run_query_Return in Hq as [_ ->].
  destruct (paper_row db current) as [paper|] eqn:Hrow.
  2: { injection Hk as <-. by apply step_missing. }
  destruct (d <? max_depth) eqn:Hlt.
  2: { injection Hk as <-. apply Z.ltb_ge in Hlt. by apply step_leaf. }
  apply Z.ltb_lt in Hlt.
  apply bind_Return in Hk as (citing & Hq1 & Hk).
  apply run_query_Return in Hq1 as [_ ->].
  apply bind_Return in Hk as (cited & Hq2 & Hk).
  apply run_query_Return in Hq2 as [_ ->].
  rewrite foldl_citing_round, foldl_cited_round in Hk. simpl in Hk.
  injection Hk as <-. rewrite <- !app_assoc. by apply step_expand.
Qed.

(** ** The while loop *)

Section loop_facts.
Variable db : Session.
Variable center : paper_id.
Variable max_depth max_papers : Z.

Local Abbreviation body := (loop_body db center max_depth).
Local Abbreviation loop := (while_loop db center max_depth max_papers).
Local Abbreviation cond := (loop_cond max_papers).

(** The invariant rule: a property every round preserves holds when the
    loop exits, together with the negation of the loop condition. *)
Lemma while_loop_invariant (P : State → Prop) :
  (∀ s s', P s → cond s = true → step db center max_depth s s' → P s') →
  ∀ fuel s r, P s → loop fuel s = Some (Return r) → P r ∧ cond r = false.
Proof.
  intros Hstep. induction fuel as [|fuel IH]; intros s r HP; simpl; [discriminate|].
  destruct (cond s) eqn:Hc.
  - destruct (body s) as [s'|e] eqn:Hb; [|discriminate].
    apply IH. eapply Hstep; eauto using loop_body_step.
  - by intros [= <-].
Qed.

(** More fuel does not change the outcome of a loop that finished. *)
Lemma while_loop_fuel_mono fuel fuel' s r :
  (fuel ≤ fuel')%nat → loop fuel s = Some r → loop fuel' s = Some r.
Proof.
  revert fuel' s. induction fuel as [|fuel IH]; intros fuel' s Hle; simpl; [discriminate|].
  destruct fuel' as [|fuel']; [lia|]. simpl.
  destruct (cond s); [|done].
  destruct (body s); [|done]. apply IH. lia.
Qed.

Lemma filter_mark (f : Citation → paper_id) current (visited : gset paper_id) rows :
  current ∉ visited →
  (length (filter (λ c, f c ∉ {[current]} ∪ visited) rows)
   + length (filter (λ c, f c = current) rows))%nat
  = length (filter (λ c, f c ∉ visited) rows).
Proof.
  intros Hfresh. induction rows as [|c rows IH]; [done|].
  rewrite !filter_cons.
  destruct (decide (f c = current)) as [Heq|Hne].
  - rewrite decide_False, decide_True; simpl; [lia|congruence|].
    rewrite elem_of_union, elem_of_singleton. tauto.
  - destruct (decide (f c ∈ visited)) as [Hin|Hnin].
    + rewrite !decide_False; simpl; [lia|tauto|].
      rewrite elem_of_union. tauto.
    + rewrite !decide_True; simpl; [lia|tauto|].
      rewrite elem_of_union, elem_of_singleton. tauto.
Qed.

Lemma pending_mark current visited rows :
  current ∉ visited →
  (pending ({[current]} ∪ visited) rows
   + length (filter (λ c, cited_paper_id c = current) rows)
   + length (filter (λ c, citing_paper_id c = current) rows))%nat
  = pending visited rows.
Proof.
  intros Hfresh. unfold pending.
  pose proof (filter_mark cited_paper_id current visited rows Hfresh).
  pose proof (filter_mark citing_paper_id current visited rows Hfresh).
  lia.
Qed.

Lemma citing_pushes_length visited d rows :
  (length (citing_pushes visited d rows) ≤ length rows)%nat.
Proof. unfold citing_pushes. rewrite length_fmap. apply length_filter. Qed.

Lemma cited_pushes_length visited d rows :
  (length (cited_pushes visited d rows) ≤ length rows)%nat.
Proof. unfold cited_pushes. rewrite length_fmap. apply length_filter. Qed.

(** Every round lowers the potential. *)
Lemma step_potential s s' :
  step db center max_depth s s' → (potential db s' < potential db s)%nat.
Proof.
  unfold potential.
  destruct 1 as [current d queue ns es visited _
                |current d queue ns es visited Hfresh _ _
                |current d queue ns es visited paper Hfresh _ _ _
                |current d queue ns es visited paper Hfresh _ _]; simpl.
  - lia.
  - pose proof (pending_mark current visited (citations db) Hfresh). lia.
  - pose proof (pending_mark current visited (citations db) Hfresh). lia.
  - pose proof (pending_mark current visited (citations db) Hfresh) as Hp.
    rewrite !length_app.
    pose proof (citing_pushes_length ({[current]} ∪ visited) d (rows_citing db current)).
    pose proof (cited_pushes_length ({[current]} ∪ visited) d (rows_cited_by db current)).
    unfold rows_citing, rows_cited_by in *. lia.
Qed.

(** The loop finishes as soon as the fuel exceeds the potential. *)
Lemma while_loop_terminates fuel s :
  (potential db s < fuel)%nat → ∃ r, loop fuel s = Some r.
Proof.
  revert s. induction fuel as [|fuel IH]; intros s Hlt; [lia|]. simpl.
  destruct (cond s); [|eauto].
  destruct (body s) as [s'|e] eqn:Hb; [|eauto].
  apply IH. apply loop_body_step, step_potential in Hb. lia.
Qed.

Lemma potential_initial :
  (potential db (initial_state center) < loop_bound db)%nat.
Proof.
  unfold potential, pending, loop_bound. simpl.
  match goal with
  | |- (S (length ?a + length ?b) < _)%nat =>
    assert (length a ≤ length (citations db))%nat by apply length_filter;
    assert (length b ≤ length (citations db))%nat by apply length_filter
  end.
  lia.
Qed.
End loop_facts.

(** ** The network builder *)

Lemma traverse_with_fuel_Return db center max_depth max_papers fuel net :
  traverse_with_fuel db center max_depth max_papers fuel = Some (Return net) →
  ∃ paper s,
    failure db (QPaperFirst center) = None ∧
    paper_row db center = Some paper ∧
    while_loop db center max_depth max_papers fuel (initial_state center) = Some (Return s) ∧
    net = network_args center max_depth s.
Proof.
  unfold traverse_with_fuel, query_paper, run_query.
  destruct (failure db (QPaperFirst center)); [discriminate|].
  destruct (paper_row db center) as [paper|]; [|discriminate].
  destruct (while_loop _ _ _ _ _ _) as [[s|e]|]; try discriminate.
  intros [= <-]. eauto 10.
Qed.

(** The call finishes, and with the outcome any larger fuel gives. *)
Lemma traverse_total db center max_depth max_papers :
  ∃ r, traverse db center max_depth max_papers = Some r
       ∧ ∀ fuel, (loop_bound db ≤ fuel)%nat →
           traverse_with_fuel db center max_depth max_papers fuel = Some r.
Proof.
  unfold traverse, traverse_with_fuel.
  destruct (query_paper db center) as [[paper|]|e]; eauto.
  destruct (while_loop_terminates db center max_depth max_papers (loop_bound db)
              (initial_state center) (potential_initial db center)) as [r Hr].
  rewrite Hr.
  exists (match r with Return s => Return (network_args center max_depth s) | Raise e => Raise e end).
  split; [by destruct r|].
  intros fuel Hle. rewrite (while_loop_fuel_mono _ _ _ _ _ _ _ _ Hle Hr). by destruct r.
Qed.

(** The rule used for the properties of the arguments the traversal arrives
    at: what every round preserves, and the initial state has, the final
    state has. *)
Lemma traverse_invariant (P : State → Prop) db center max_depth max_papers net :
  (∀ paper, paper_row db center = Some paper → P (initial_state center)) →
  (∀ s s', P s → loop_cond max_papers s = true → step db center max_depth s s' → P s') →
  traverse db center max_depth max_papers = Some (Return net) →
  ∃ s, P s ∧ loop_cond max_papers s = false ∧ net = network_args center max_depth s.
Proof.
  intros Hinit Hstep (paper & s & _ & Hrow & Hloop & ->)%traverse_with_fuel_Return.
  eapply while_loop_invariant in Hloop as [HP Hc]; eauto.
Qed.

(** In a session that never fails the body of the loop does not raise. *)
Lemma loop_body_never_fails db center max_depth max_papers s :
  never_fails db → loop_cond max_papers s = true →
  ∃ s', loop_body db center max_depth s = Return s'.
Proof.
  intros Hnf Hc. unfold loop_cond in Hc. apply andb_true_iff in Hc as [Hq _].
  unfold loop_body, query_paper, query_citing_citations, query_cited_citations, run_query.
  destruct (st_queue s) as [|[current d] queue]; [done|].
  destruct (_ || _); [eauto|]. rewrite !Hnf. simpl.
  destruct (paper_row db current); [|eauto].
  destruct (d <? max_depth); [|eauto]. simpl. eauto.
Qed.

Lemma while_loop_never_fails db center max_depth max_papers fuel s r :
  never_fails db →
  while_loop db center max_depth max_papers fuel s = Some r → ∃ s', r = Return s'.
Proof.
  intros Hnf. revert s. induction fuel as [|fuel IH]; intros s; simpl; [discriminate|].
  destruct (loop_cond max_papers s) eqn:Hc.
  - destruct (loop_body_never_fails db center max_depth max_papers s Hnf Hc) as [s' ->].
    apply IH.
  - intros [= <-]. eauto.
Qed.

(** When no query fails and the center paper exists, the traversal reaches
    the call of the constructor. *)
Lemma traverse_succeeds db center max_depth max_papers :
  never_fails db → is_Some (paper_row db center) →
  ∃ net, traverse db center max_depth max_papers = Some (Return net).
Proof.
  intros Hnf [paper Hrow].
  destruct (traverse_total db center max_depth max_papers) as (r & Hr & _).
  rewrite Hr. revert Hr.
  unfold traverse, traverse_with_fuel, query_paper, run_query.
  rewrite Hnf, Hrow.
  destruct (while_loop _ _ _ _ _ _) as [[s|e]|] eqn:Hloop; [intros [= <-]; eauto| |discriminate].
  apply while_loop_never_fails in Hloop as [? ?]; [discriminate|done].
Qed.

Lemma loop_cond_true max_papers s :
  loop_cond max_papers s = true →
  st_queue s ≠ [] ∧ Z.of_nat (length (st_nodes s)) < max_papers.
Proof.
  unfold loop_cond. intros [Hq Hn]%andb_true_iff.
  apply negb_true_iff, bool_decide_eq_false in Hq. apply Z.ltb_lt in Hn. done.
Qed.

Lemma loop_cond_false max_papers s :
  loop_cond max_papers s = false →
  st_queue s = [] ∨ max_papers ≤ Z.of_nat (length (st_nodes s)).
Proof.
  unfold loop_cond. intros [Hq|Hn]%andb_false_iff.
  - left. by apply negb_false_iff, bool_decide_eq_true in Hq.
  - right. by apply Z.ltb_ge.
Qed.

(** *** The call of the constructor *)

Lemma errors_of_both {A B} (x : validated A) (y : validated B) :
  errors_of (x <&> y) = errors_of x ++ errors_of y.
Proof. destruct x, y; simpl; by rewrite ?app_nil_r. Qed.

Lemma errors_of_map {A B} (f : A → B) (x : validated A) :
  errors_of (v_map f x) = errors_of x.
Proof. by destruct x. Qed.

Lemma v_both_inl {A B} (x : validated A) (y : validated B) errors :
  x = inl errors ∨ y = inl errors → x <&> y = inl (errors_of (x <&> y)).
Proof. intros [Hx | Hy]; destruct x, y; done. Qed.

Lemma v_items_strings loc i (l : list string) : v_items v_str loc i (PyStr <$> l) = inr l.
Proof.
  revert i. induction l as [|a l IH]; intros i; simpl; [done|]. by rewrite IH.
Qed.

Lemma validate_node_dict loc n :
  validate_CitationNode loc (node_dict n) = inl (node_errors loc n).
Proof.
  unfold validate_CitationNode, node_dict, node_errors, required, with_default, field_error.
  cbn [get_item String.eqb Ascii.eqb Bool.eqb andb v_uuid v_str v_list].
  rewrite v_items_strings.
  by destruct (node_citation_count n), (node_influence_score n).
Qed.

Lemma validate_edge_dict loc e :
  validate_CitationEdge loc (edge_dict e) = inl (edge_errors loc e).
Proof.
  unfold validate_CitationEdge, edge_dict, edge_errors, required, with_default, field_error.
  cbn [get_item String.eqb Ascii.eqb Bool.eqb andb].
  by destruct (edge_strength e).
Qed.

Lemma errors_of_items {A B} (validate : list loc_item → pyvalue → validated B)
    (dict : A → pyvalue) (errors : list loc_item → A → list line_error) loc i l :
  (∀ loc' a, validate loc' (dict a) = inl (errors loc' a)) →
  errors_of (v_items validate loc i (dict <$> l))
  = mjoin (imap (λ k, errors (loc ++ [LocIndex (i + k)])) l).
Proof.
  intros Hvalidate. revert i. induction l as [|a l IH]; intros i; [done|].
  cbn [fmap list_fmap v_items imap]. rewrite errors_of_map, errors_of_both, Hvalidate, IH.
  cbn [mjoin list_join errors_of]. rewrite Nat.add_0_r. do 2 f_equal.
  apply imap_ext. intros k b _. simpl. do 4 f_equal. lia.
Qed.

(** The constructor raises for the arguments of every traversal. *)
Lemma new_CitationNetwork_Raise args :
  new_CitationNetwork (keyword_arguments args)
  = Raise (ValidationError "CitationNetwork" (call_errors args)).
Proof.
  unfold new_CitationNetwork, validate_CitationNetwork, keyword_arguments, required,
    with_default.
  cbn [get_item String.eqb Ascii.eqb Bool.eqb andb v_list v_uuid v_int app].
  set (vn := v_items validate_CitationNode _ 0 _).
  set (ve := v_items validate_CitationEdge _ 0 _).
  set (tn := invalid missing [LocName "total_nodes"]).
  set (te := invalid missing [LocName "total_edges"]).
  assert (vn <&> ve <&> tn <&> te = inl (call_errors args)) as ->.
  { rewrite (v_both_inl _ te (errors_of te)) by (by right).
    rewrite !errors_of_both. unfold vn, ve.
    rewrite (errors_of_items validate_CitationNode node_dict node_errors)
      by apply validate_node_dict.
    rewrite (errors_of_items validate_CitationEdge edge_dict edge_errors)
      by apply validate_edge_dict.
    unfold call_errors. by rewrite <- !app_assoc. }
  done.
Qed.

(** *** The builder: the traversal followed by the constructor *)

Lemma build_traverse db center max_depth max_papers :
  build_citation_network db center max_depth max_papers
  = match traverse db center max_depth max_papers with
    | None => None
    | Some (Raise e) => Some (Raise e)
    | Some (Return args) => Some (Raise (ValidationError "CitationNetwork" (call_errors args)))
    end.
Proof.
  unfold build_citation_network, build_with_fuel, traverse.
  destruct (traverse_with_fuel _ _ _ _ _) as [[args|e]|]; [|done..].
  by rewrite new_CitationNetwork_Raise.
Qed.

(** The call finishes, with the outcome any larger fuel gives. *)
Lemma build_total db center max_depth max_papers :
  ∃ r, build_citation_network db center max_depth max_papers = Some r
       ∧ ∀ fuel, (loop_bound db ≤ fuel)%nat →
           build_with_fuel db center max_depth max_papers fuel = Some r.
Proof.
  destruct (traverse_total db center max_depth max_papers) as (r & Hr & Hfuel).
  unfold build_citation_network, build_with_fuel. unfold traverse in Hr. rewrite Hr.
  destruct r as [args|e]; (eexists; split; [done|]);
    intros fuel Hle; by rewrite (Hfuel fuel Hle).
Qed.

(** *** The size and depth bounds *)

Lemma Forall_dict_values_set {V} (P : V → Prop) k v d :
  P v → Forall P (dict_values d) → Forall P (dict_values (dict_set k v d)).
Proof.
  unfold dict_values. rewrite !Forall_fmap, !Forall_forall.
  intros Hv Hd x [->|Hx]%elem_of_dict_set; [done|]. by apply Hd.
Qed.

Lemma bounds_inv_step db center max_depth max_papers s s' :
  bounds_inv max_depth max_papers s → loop_cond max_papers s = true →
  step db center max_depth s s' → bounds_inv max_depth max_papers s'.
Proof.
  intros [Hlen Hdepth] [_ Hlt]%loop_cond_true Hstep. unfold bounds_inv.
  destruct Hstep as [current d queue ns es visited _
                    |current d queue ns es visited _ _ _
                    |current d queue ns es visited paper _ Hd _ _
                    |current d queue ns es visited paper _ Hd _]; simpl in *;
    try done.
  all: split;
    [pose proof (dict_set_length current (make_node center current d paper) ns); lia
    |apply Forall_dict_values_set; [simpl; lia | done]].
Qed.

Lemma traverse_bounds db center max_depth max_papers net :
  0 ≤ max_papers →
  traverse db center max_depth max_papers = Some (Return net) →
  Z.of_nat (length (nodes net)) ≤ max_papers
  ∧ Forall (λ n, node_depth n ≤ max_depth) (nodes net).
Proof.
  intros Hmax Hbuild.
  apply (traverse_invariant (bounds_inv max_depth max_papers)) in Hbuild
    as (s & [Hlen Hdepth] & _ & Hnet); eauto using bounds_inv_step.
  - subst net. simpl. unfold dict_values. by rewrite length_fmap.
  - intros ? _. split; simpl; [lia | constructor].
Qed.

(** X17. The traversal keeps the two bounds: for every store, every center
    paper, every depth >= 0 and every max_papers >= 1 the traversal
    finishes, and the [nodes] argument it arrives at has at most max_papers
    nodes ([total_papers] is their number), none of them at a depth greater
    than depth. *)
Theorem collected_size_and_depth_bounds db center_id depth_limit max_papers :
  0 ≤ depth_limit → 1 ≤ max_papers →
  ∃ r, traverse db center_id depth_limit max_papers = Some r
       ∧ ∀ net, r = Return net →
           Z.of_nat (length (nodes net)) ≤ max_papers
           ∧ total_papers net ≤ max_papers
           ∧ Forall (λ n, node_depth n ≤ depth_limit) (nodes net).
Proof.
  intros _ Hmax.
  destruct (traverse_total db center_id depth_limit max_papers) as (r & Hr & _).
  exists r. split; [done|]. intros net ->.
  destruct (traverse_bounds db center_id depth_limit max_papers net) as [Hlen Hdepth]; [lia|done|].
  split_and!; [done| |done].
  apply traverse_with_fuel_Return in Hr as (? & s & _ & _ & _ & ->). simpl in *. done.
Qed.

Lemma collected_size_and_depth_bounds_witness :
  ∃ net, traverse scenario_store "A" 1 2 = Some (Return net)
    ∧ Z.of_nat (length (nodes net)) ≤ 2
    ∧ total_papers net ≤ 2
    ∧ Forall (λ n, node_depth n ≤ 1) (nodes net).
Proof.
  destruct (collected_size_and_depth_bounds scenario_store "A" 1 2) as (r & Hr & Hnet);
    [lia | lia |].
  destruct (traverse_succeeds scenario_store "A" 1 2) as [net Hbuild];
    [done | vm_compute; eauto |].
  exists net. split; [exact Hbuild|].
  apply Hnet. rewrite Hbuild in Hr. by injection Hr.
Defined.

(** C4. The call returns no nodes to bound. In the scenario store the call
    for A with depth 1 and max_papers 2 raises [ValidationError] at the
    constructor of line 113: the node dicts have no [paper_id], the edge
    dicts no [source_id] and no [target_id], and the call passes neither
    [total_nodes] nor [total_edges]. The traversal before it had collected
    the two nodes A, at depth 0, and B, at depth 1. *)
Theorem bounded_network_is_not_returned :
  build_citation_network scenario_store "A" 1 2
  = Some (Raise (ValidationError "CitationNetwork"
      [node_missing 0 "paper_id"; node_missing 1 "paper_id";
       edge_missing 0 "source_id"; edge_missing 0 "target_id";
       edge_missing 1 "source_id"; edge_missing 1 "target_id";
       argument_missing "total_nodes"; argument_missing "total_edges"]))
  ∧ ∃ args, traverse scenario_store "A" 1 2 = Some (Return args)
      ∧ (λ n, (node_id n, node_depth n)) <$> nodes args = [("A", 0); ("B", 1)]
      ∧ total_papers args = 2.
Proof.
  split; [vm_compute; reflexivity|].
  eexists. split; [vm_compute; reflexivity|]. by split.
Qed.

(** *** The center node *)

(** Adding the node of a paper that is not visited yet: the center paper
    itself in the first round, another paper later. *)
Lemma center_present_add center current d paper ns (visited : gset paper_id) :
  current ∉ visited →
  center_present center ns visited ∨ (ns = [] ∧ current = center ∧ d = 0 ∧ visited = ∅) →
  center_present center (dict_set current (make_node center current d paper) ns)
                 ({[current]} ∪ visited).
Proof.
  unfold center_present.
  intros Hfresh [(Hc & Hkeys & n & Hn & Hid & Hdepth)|(-> & -> & -> & ->)].
  - split_and!.
    + apply elem_of_union. by right.
    + intros k [->|Hk]%dict_keys_dict_set; apply elem_of_union; [left; by apply elem_of_singleton|].
      right. by apply Hkeys.
    + rewrite dict_set_fresh by (intros Hk; by apply Hfresh, Hkeys).
      unfold dict_values, center_nodes in *. rewrite fmap_app, filter_app, Hn. simpl.
      rewrite filter_cons, decide_False, filter_nil; [eauto|].
      simpl. rewrite bool_decide_eq_true. intros ->. done.
  - simpl. split_and!.
    + apply elem_of_union. left. by apply elem_of_singleton.
    + intros k [->|Hk]%elem_of_cons; [|by apply elem_of_nil in Hk].
      apply elem_of_union. left. by apply elem_of_singleton.
    + exists (make_node center center 0 paper). unfold center_nodes. simpl.
      rewrite filter_cons, decide_True, filter_nil; [done|].
      simpl. by apply bool_decide_eq_true.
Qed.

Lemma center_inv_step db center max_depth s s' :
  0 ≤ max_depth → is_Some (paper_row db center) →
  center_inv center s → step db center max_depth s s' → center_inv center s'.
Proof.
  intros Hdepth [paper0 Hrow0] Hinv Hstep. unfold center_inv.
  destruct Hstep as [current d queue ns es visited Hskip
                    |current d queue ns es visited Hfresh _ Hrow
                    |current d queue ns es visited paper Hfresh _ _ _
                    |current d queue ns es visited paper Hfresh _ _]; simpl.
  - destruct Hinv as [[= -> -> -> -> ->]|Hinv]; [|by right].
    destruct Hskip as [Hin|?]; [by apply not_elem_of_empty in Hin | lia].
  - destruct Hinv as [[= -> -> -> -> ->]|(Hc & Hkeys & Hn)]; [congruence|].
    right. simpl in *. split_and!; [| |done].
    + apply elem_of_union. by right.
    + intros k Hk. apply elem_of_union. right. by apply Hkeys.
  - right. apply center_present_add; [done|].
    destruct Hinv as [[= -> -> -> -> ->]|Hinv]; [by right | by left].
  - right. apply center_present_add; [done|].
    destruct Hinv as [[= -> -> -> -> ->]|Hinv]; [by right | by left].
Qed.

(** X18. The traversal collects one center node: for every call with
    depth >= 0 and max_papers >= 1 the traversal finishes, and the [nodes]
    argument it arrives at has exactly one node with is_center = true; the
    id of that node is the center_paper_id passed in, and its depth is 0. *)
Theorem collected_center_node db center_id depth_limit max_papers :
  0 ≤ depth_limit → 1 ≤ max_papers →
  ∃ r, traverse db center_id depth_limit max_papers = Some r
       ∧ ∀ net, r = Return net →
           ∃ n, filter (λ x, is_center x = true) (nodes net) = [n]
                ∧ node_id n = center_id ∧ node_depth n = 0.
Proof.
  intros Hdepth Hmax.
  destruct (traverse_total db center_id depth_limit max_papers) as (r & Hr & _).
  exists r. split; [done|]. intros net ->.
  pose proof Hr as (paper & _ & _ & Hrow & _ & _)%traverse_with_fuel_Return.
  apply (traverse_invariant (center_inv center_id)) in Hr as (s & Hinv & Hc & ->).
  - destruct Hinv as [->|(_ & _ & Hn)]; [|done].
    apply loop_cond_false in Hc as [Hc|Hc]; [done | simpl in Hc; lia].
  - intros _ _. by left.
  - intros s s' Hinv _ Hstep. eapply center_inv_step; eauto.
Qed.

Lemma collected_center_node_witness :
  ∃ net, traverse scenario_store "A" 2 10 = Some (Return net)
    ∧ ∃ n, filter (λ x, is_center x = true) (nodes net) = [n]
           ∧ node_id n = "A" ∧ node_depth n = 0.
Proof.
  destruct (collected_center_node scenario_store "A" 2 10) as (r & Hr & Hnet);
    [lia | lia |].
  destruct (traverse_succeeds scenario_store "A" 2 10) as [net Hbuild];
    [done | vm_compute; eauto |].
  exists net. split; [exact Hbuild|].
  apply Hnet. rewrite Hbuild in Hr. by injection Hr.
Defined.

(** C5. No call is successful, so no center node is returned. In the store
    with the single citation B->A the call for A with depth 1 and
    max_papers 10 raises [ValidationError] at the constructor of line 113.
    The traversal before it had collected A, flagged as the center at
    depth 0, and B, not flagged, at depth 1. *)
Theorem center_node_is_not_returned :
  build_citation_network single_citation_store "A" 1 10
  = Some (Raise (ValidationError "CitationNetwork"
      [node_missing 0 "paper_id"; node_missing 1 "paper_id";
       edge_missing 0 "source_id"; edge_missing 0 "target_id";
       argument_missing "total_nodes"; argument_missing "total_edges"]))
  ∧ ∃ args, traverse single_citation_store "A" 1 10 = Some (Return args)
      ∧ (λ n, (node_id n, is_center n, node_depth n)) <$> nodes args
        = [("A", true, 0); ("B", false, 1)].
Proof.
  split; [vm_compute; reflexivity|].
  eexists. split; [vm_compute; reflexivity|]. done.
Qed.

(** *** Edges and the node set *)

Lemma ids_inv_step db center max_depth s s' :
  ids_inv s → step db center max_depth s s' → ids_inv s'.
Proof.
  unfold ids_inv. intros Hinv Hstep.
  destruct Hstep; simpl in *; try done.
  all: apply Forall_forall; intros kn [->|Hkn]%elem_of_dict_set; [done|].
  all: by eapply Forall_forall in Hinv.
Qed.

Lemma ids_inv_keys s :
  ids_inv s → node_id <$> dict_values (st_nodes s) = dict_keys (st_nodes s).
Proof.
  unfold ids_inv, dict_values, dict_keys. induction 1 as [|[k n] ns Hk _ IH]; [done|].
  simpl in *. by f_equal.
Qed.

Lemma expanded_end_inv_step db center max_depth s s' :
  expanded_end_inv s → step db center max_depth s s' → expanded_end_inv s'.
Proof.
  unfold expanded_end_inv. intros Hinv Hstep.
  destruct Hstep as [current d queue ns es visited _
                    |current d queue ns es visited _ _ _
                    |current d queue ns es visited paper _ _ _ _
                    |current d queue ns es visited paper _ _ _]; simpl in *; try done.
  - intros e He. rewrite !dict_keys_dict_set. destruct (Hinv e He); auto.
  - intros e. rewrite !elem_of_app, !dict_keys_dict_set.
    intros [He|[He|He]].
    + destruct (Hinv e He); auto.
    + apply list_elem_of_fmap in He as (c & -> & _). simpl. auto.
    + apply list_elem_of_fmap in He as (c & -> & _). simpl. auto.
Qed.

Lemma end_accounted_mono max_depth ns ns' queue queue' x :
  (∀ y, y ∈ dict_keys ns → y ∈ dict_keys ns') →
  (∀ y k, (y, k) ∈ queue → k ≤ max_depth → (y, k) ∈ queue' ∨ y ∈ dict_keys ns') →
  end_accounted max_depth ns queue x → end_accounted max_depth ns' queue' x.
Proof.
  intros Hns Hq [Hx|(k & Hk & Hle)]; [left; auto|].
  destruct (Hq x k Hk Hle); [right; eauto | by left].
Qed.

Lemma rows_citing_spec db pid c :
  c ∈ rows_citing db pid ↔ cited_paper_id c = pid ∧ c ∈ citations db.
Proof. unfold rows_citing. by rewrite list_elem_of_filter. Qed.

Lemma rows_cited_by_spec db pid c :
  c ∈ rows_cited_by db pid ↔ citing_paper_id c = pid ∧ c ∈ citations db.
Proof. unfold rows_cited_by. by rewrite list_elem_of_filter. Qed.

Lemma elem_of_citing_pushes visited d rows x k :
  (x, k) ∈ citing_pushes visited d rows ↔
  ∃ c, c ∈ rows ∧ (citing_paper_id c ∉ visited) ∧ x = citing_paper_id c ∧ k = d + 1.
Proof.
  unfold citing_pushes. rewrite list_elem_of_fmap. split.
  - intros (c & Heq & Hc). apply list_elem_of_filter in Hc as [? ?].
    injection Heq as -> ->. eauto.
  - intros (c & ? & ? & -> & ->). exists c. by rewrite list_elem_of_filter.
Qed.

Lemma elem_of_cited_pushes visited d rows x k :
  (x, k) ∈ cited_pushes visited d rows ↔
  ∃ c, c ∈ rows ∧ (cited_paper_id c ∉ visited) ∧ x = cited_paper_id c ∧ k = d + 1.
Proof.
  unfold cited_pushes. rewrite list_elem_of_fmap. split.
  - intros (c & Heq & Hc). apply list_elem_of_filter in Hc as [? ?].
    injection Heq as -> ->. eauto.
  - intros (c & ? & ? & -> & ->). exists c. by rewrite list_elem_of_filter.
Qed.

Lemma closure_inv_step db center max_depth s s' :
  foreign_keys_hold db →
  closure_inv db max_depth s → step db center max_depth s s' → closure_inv db max_depth s'.
Proof.
  intros Hfk (Hvis & Hrows & Hedges) Hstep. unfold closure_inv.
  assert (Hfk' : ∀ c, c ∈ citations db →
            is_Some (paper_row db (citing_paper_id c))
            ∧ is_Some (paper_row db (cited_paper_id c))).
  { intros c Hc. unfold foreign_keys_hold in Hfk. by eapply Forall_forall in Hfk. }
  destruct Hstep as [current d queue ns es visited Hskip
                    |current d queue ns es visited Hfresh _ Hrow
                    |current d queue ns es visited paper Hfresh Hle _ _
                    |current d queue ns es visited paper Hfresh Hlt _]; simpl in *.
  - (* the entry is dropped *)
    split_and!; [done|intros x k Hx; eapply Hrows; by right|].
    intros e He. destruct (Hedges e He) as [Hs Ht].
    split; (eapply end_accounted_mono; [| |eassumption]); [done| |done|].
    all: intros y k [[= -> ->]|Hy]%elem_of_cons Hk; [right|by left].
    all: destruct Hskip; [by apply Hvis | lia].
  - (* no paper row: excluded by the foreign keys *)
    destruct (Hrows current d) as [? ?]; [by left | congruence].
  - (* a node at the depth limit *)
    split_and!.
    + intros x [->%elem_of_singleton|Hx]%elem_of_union; apply dict_keys_dict_set; auto.
    + intros x k Hx. eapply Hrows. by right.
    + intros e He. destruct (Hedges e He) as [Hs Ht].
      split; (eapply end_accounted_mono; [| |eassumption]).
      all: try (intros y Hy; apply dict_keys_dict_set; by right).
      all: intros y k [[= -> ->]|Hy]%elem_of_cons Hk; [right|by left].
      all: apply dict_keys_dict_set; by left.
  - (* a node whose citations are followed *)
    assert (Hkeys : ∀ x, x ∈ {[current]} ∪ visited →
              x ∈ dict_keys (dict_set current (make_node center current d paper) ns)).
    { intros x [->%elem_of_singleton|Hx]%elem_of_union; apply dict_keys_dict_set; auto. }
    split_and!; [done| |].
    + intros x k. rewrite !elem_of_app.
      intros [Hx|[Hx|Hx]]; [eapply Hrows; by right| |].
      * apply elem_of_citing_pushes in Hx as (c & [_ Hc]%rows_citing_spec & _ & -> & _).
        by apply Hfk'.
      * apply elem_of_cited_pushes in Hx as (c & [_ Hc]%rows_cited_by_spec & _ & -> & _).
        by apply Hfk'.
    + intros e. rewrite !elem_of_app. intros [He|[He|He]].
      * destruct (Hedges e He) as [Hs Ht].
        split; (eapply end_accounted_mono; [| |eassumption]).
        all: try (intros y Hy; apply dict_keys_dict_set; by right).
        all: intros y k [[= -> ->]|Hy]%elem_of_cons Hk;
          [right; apply dict_keys_dict_set; by left | left; apply elem_of_app; by left].
      * apply list_elem_of_fmap in He as (c & -> & Hc). simpl. split.
        -- destruct (decide (citing_paper_id c ∈ {[current]} ∪ visited)) as [Hin|Hnin].
           ++ left. by apply Hkeys.
           ++ right. exists (d + 1). split; [|lia].
              rewrite !elem_of_app. right; left.
              apply elem_of_citing_pushes. eauto.
        -- left. apply dict_keys_dict_set. by left.
      * apply list_elem_of_fmap in He as (c & -> & Hc). simpl. split.
        -- left. apply dict_keys_dict_set. by left.
        -- destruct (decide (cited_paper_id c ∈ {[current]} ∪ visited)) as [Hin|Hnin].
           ++ left. by apply Hkeys.
           ++ right. exists (d + 1). split; [|lia].
              rewrite !elem_of_app. right; right.
              apply elem_of_cited_pushes. eauto.
Qed.

(** The claim C1 fails at the cap: with max_papers = 1 the edge from the
    citing paper B is recorded while the center A is expanded, and the loop
    ends before B is taken from the queue. The call hands the constructor
    the node A alone and the edge B->A, and the constructor raises. *)
Lemma closure_fails_at_the_cap :
  ∃ args e,
    traverse single_citation_store "A" 1 1 = Some (Return args)
    ∧ node_ids args = ["A"]
    ∧ edges args = [e] ∧ source e = "B" ∧ target e = "A"
    ∧ (source e ∉ node_ids args)
    ∧ build_citation_network single_citation_store "A" 1 1
      = Some (Raise (ValidationError "CitationNetwork"
          [node_missing 0 "paper_id";
           edge_missing 0 "source_id"; edge_missing 0 "target_id";
           argument_missing "total_nodes"; argument_missing "total_edges"])).
Proof.
  eexists _, _. split; [vm_compute; reflexivity|].
  split_and!; try reflexivity.
  unfold node_ids. simpl. rewrite list_elem_of_singleton. discriminate.
Qed.

(** Without the foreign keys the nodes need not cover the edges even below
    the cap: the citing paper of a row without paper row is marked visited
    and never becomes a node. *)
Lemma closure_needs_foreign_keys :
  ∃ net e, traverse dangling_citation_store "A" 1 10 = Some (Return net)
    ∧ total_papers net < 10
    ∧ e ∈ edges net ∧ source e ∉ node_ids net.
Proof.
  eexists _, _. split; [vm_compute; reflexivity|]. split; [reflexivity|]. split.
  - apply list_elem_of_here.
  - simpl. unfold node_ids. simpl. rewrite list_elem_of_singleton. discriminate.
Qed.

(** C1, amended. For every store satisfying the foreign keys of the
    citations table the traversal finishes, and in the [nodes] and [edges]
    arguments it arrives at every edge has an end in the node set (the
    paper that was being expanded); when fewer than max_papers nodes were
    collected, so that the traversal was not cut short by the cap, both
    ends of every edge are in the node set. *)
Theorem edges_closed_below_the_cap db center_id depth_limit max_papers :
  foreign_keys_hold db →
  ∃ r, traverse db center_id depth_limit max_papers = Some r
       ∧ ∀ net, r = Return net →
           (∀ e, e ∈ edges net → source e ∈ node_ids net ∨ target e ∈ node_ids net)
           ∧ (total_papers net < max_papers →
              ∀ e, e ∈ edges net → source e ∈ node_ids net ∧ target e ∈ node_ids net).
Proof.
  intros Hfk.
  destruct (traverse_total db center_id depth_limit max_papers) as (r & Hr & _).
  exists r. split; [done|]. intros net ->.
  apply (traverse_invariant
           (λ s, ids_inv s ∧ expanded_end_inv s ∧ closure_inv db depth_limit s)) in Hr
    as (s & (Hids & Hweak & Hvis & Hrows & Hedges) & Hc & ->).
  - unfold node_ids. simpl. rewrite (ids_inv_keys s Hids). split; [done|].
    unfold dict_values. rewrite length_fmap. intros Hlt.
    apply loop_cond_false in Hc as [Hq|?]; [|lia].
    intros e He. destruct (Hedges e He) as [Hs Ht]. rewrite Hq in Hs, Ht.
    destruct Hs as [?|(? & []%elem_of_nil & _)].
    destruct Ht as [?|(? & []%elem_of_nil & _)]. done.
  - intros paper Hrow. split_and!.
    + constructor.
    + intros e []%elem_of_nil.
    + split_and!; simpl.
      * intros x []%not_elem_of_empty.
      * intros x k [= -> ->]%list_elem_of_singleton. eauto.
      * intros e []%elem_of_nil.
  - intros s s' (? & ? & ?) _ Hstep.
    split_and!; eauto using ids_inv_step, expanded_end_inv_step, closure_inv_step.
Qed.

Lemma scenario_store_foreign_keys : foreign_keys_hold scenario_store.
Proof. repeat constructor; vm_compute; eauto. Qed.

Lemma edges_closed_below_the_cap_witness :
  foreign_keys_hold scenario_store
  ∧ ∃ net, traverse scenario_store "A" 2 10 = Some (Return net)
      ∧ total_papers net < 10
      ∧ ∀ e, e ∈ edges net → source e ∈ node_ids net ∧ target e ∈ node_ids net.
Proof.
  split; [exact scenario_store_foreign_keys|].
  destruct (edges_closed_below_the_cap scenario_store "A" 2 10 scenario_store_foreign_keys)
    as (r & Hr & Hnet).
  destruct (traverse_succeeds scenario_store "A" 2 10) as [net Hbuild];
    [done | vm_compute; eauto |].
  exists net. split; [done|].
  rewrite Hbuild in Hr. injection Hr as <-.
  destruct (Hnet net eq_refl) as [_ Hclosed].
  assert (Hlt : total_papers net < 10).
  { revert Hbuild. vm_compute. intros [= <-]. reflexivity. }
  split; [exact Hlt | exact (Hclosed Hlt)].
Defined.

(** *** The scenario of the specification *)

(** The claim C2 fails: in the scenario store the call for A with depth 2
    and max_papers 10 returns nothing, the constructor raising for the
    sixteen fields the call does not provide, and the edge list the
    traversal had collected holds five edges, not three. *)
Lemma scenario_network_is_not_returned :
  ∃ args errors,
    build_citation_network scenario_store "A" 2 10
    = Some (Raise (ValidationError "CitationNetwork" errors))
    ∧ length errors = 16%nat
    ∧ argument_missing "total_nodes" ∈ errors
    ∧ argument_missing "total_edges" ∈ errors
    ∧ traverse scenario_store "A" 2 10 = Some (Return args)
    ∧ length (edges args) = 5%nat.
Proof.
  eexists _, _. split; [vm_compute; reflexivity|].
  split_and!; [reflexivity | | | vm_compute; reflexivity | reflexivity].
  - do 14 apply list_elem_of_further. apply list_elem_of_here.
  - do 15 apply list_elem_of_further. apply list_elem_of_here.
Qed.

(** C2, amended. In the store where A is cited by B and by C, and B is
    cited by D, the traversal of the call for A with depth 2 and max_papers
    10 arrives at the nodes A at depth 0, B and C at depth 1 and D at depth
    2, once each and in this order, and at the edge list B->A, C->A, D->B,
    B->A, C->A: as a set the edges B->A, C->A and D->B, the two rows both
    of whose papers were expanded being listed twice. *)
Theorem scenario_traversal :
  ∃ args, traverse scenario_store "A" 2 10 = Some (Return args)
    ∧ (λ n, (node_id n, node_depth n)) <$> nodes args
      = [("A", 0); ("B", 1); ("C", 1); ("D", 2)]
    ∧ (λ e, (source e, target e)) <$> edges args
      = [("B", "A"); ("C", "A"); ("D", "B"); ("B", "A"); ("C", "A")]
    ∧ (∀ st, st ∈ (λ e, (source e, target e)) <$> edges args
             ↔ st ∈ [("B", "A"); ("C", "A"); ("D", "B")])
    ∧ total_papers args = 4 ∧ total_citations args = 5.
Proof.
  eexists. split; [vm_compute; reflexivity|]. split_and!; try reflexivity.
  intros st. simpl. rewrite !elem_of_cons, !elem_of_nil. tauto.
Qed.

(** *** Repeated edges *)

(** C10. No edge list is returned, and no count reported. For the store
    with the single citation B->A the call for A with depth 2 raises
    [ValidationError] at the constructor of line 113. The traversal before
    it had collected the edge B->A twice, once from the expansion of A and
    once from the expansion of B, and the [total_citations] argument, the
    length of the edge list, exceeds the number of citation rows of the
    store. *)
Theorem repeated_edge_is_not_returned :
  build_citation_network single_citation_store "A" 2 10
  = Some (Raise (ValidationError "CitationNetwork"
      [node_missing 0 "paper_id"; node_missing 1 "paper_id";
       edge_missing 0 "source_id"; edge_missing 0 "target_id";
       edge_missing 1 "source_id"; edge_missing 1 "target_id";
       argument_missing "total_nodes"; argument_missing "total_edges"]))
  ∧ ∃ args e,
      traverse single_citation_store "A" 2 10 = Some (Return args)
      ∧ source e = "B" ∧ target e = "A"
      ∧ edges args = [e; e]
      ∧ total_citations args = Z.of_nat (length (edges args))
      ∧ Z.of_nat (length (citations single_citation_store)) < total_citations args.
Proof.
  split; [vm_compute; reflexivity|].
  eexists _, _. split; [vm_compute; reflexivity|]. simpl.
  split_and!; try reflexivity. all: reflexivity.
Qed.

(** *** Determinism *)

Section same_answers.
Variables db1 db2 : Session.
Hypothesis same_papers : ∀ pid, query_paper db1 pid = query_paper db2 pid.
Hypothesis same_citing :
  ∀ pid, query_citing_citations db1 pid = query_citing_citations db2 pid.
Hypothesis same_cited :
  ∀ pid, query_cited_citations db1 pid = query_cited_citations db2 pid.

Lemma loop_body_same center max_depth s :
  loop_body db1 center max_depth s = loop_body db2 center max_depth s.
Proof.
  unfold loop_body. destruct (st_queue s) as [|[current d] queue]; [done|].
  destruct (_ || _); [done|]. rewrite same_papers.
  destruct (query_paper db2 current) as [[paper|]|e]; simpl; [|done..].
  destruct (d <? max_depth); [|done].
  by rewrite same_citing, same_cited.
Qed.

Lemma while_loop_same center max_depth max_papers fuel s :
  while_loop db1 center max_depth max_papers fuel s
  = while_loop db2 center max_depth max_papers fuel s.
Proof.
  revert s. induction fuel as [|fuel IH]; intros s; simpl; [done|].
  rewrite loop_body_same. destruct (loop_cond max_papers s); [|done].
  by destruct (loop_body db2 center max_depth s).
Qed.

Lemma traverse_with_fuel_same center max_depth max_papers fuel :
  traverse_with_fuel db1 center max_depth max_papers fuel
  = traverse_with_fuel db2 center max_depth max_papers fuel.
Proof. unfold traverse_with_fuel. by rewrite same_papers, while_loop_same. Qed.

Lemma traverse_same center max_depth max_papers :
  traverse db1 center max_depth max_papers
  = traverse db2 center max_depth max_papers.
Proof.
  destruct (traverse_total db1 center max_depth max_papers) as (r1 & -> & H1).
  destruct (traverse_total db2 center max_depth max_papers) as (r2 & -> & H2).
  rewrite <- (H1 (loop_bound db1 `max` loop_bound db2)%nat) by lia.
  rewrite <- (H2 (loop_bound db1 `max` loop_bound db2)%nat) by lia.
  apply traverse_with_fuel_same.
Qed.

Lemma build_same center max_depth max_papers :
  build_citation_network db1 center max_depth max_papers
  = build_citation_network db2 center max_depth max_papers.
Proof. by rewrite !build_traverse, traverse_same. Qed.
End same_answers.

(** C8. Two calls with the same center paper, depth and max_papers,
    against sessions whose queries give the same answers (the same rows in
    the same order, or the same exception), have the same outcome, and
    their traversals arrive at the same nodes and the same edges, in the
    same order. *)
Theorem same_store_same_network db1 db2 center_id depth_limit max_papers :
  (∀ pid, query_paper db1 pid = query_paper db2 pid) →
  (∀ pid, query_citing_citations db1 pid = query_citing_citations db2 pid) →
  (∀ pid, query_cited_citations db1 pid = query_cited_citations db2 pid) →
  build_citation_network db1 center_id depth_limit max_papers
  = build_citation_network db2 center_id depth_limit max_papers
  ∧ traverse db1 center_id depth_limit max_papers
    = traverse db2 center_id depth_limit max_papers.
Proof.
  intros Hpapers Hciting Hcited. split; [by apply build_same | by apply traverse_same].
Qed.

Lemma same_store_same_network_witness :
  build_citation_network scenario_store "A" 2 10
  = build_citation_network scenario_store_counts_down "A" 2 10
  ∧ traverse scenario_store "A" 2 10
    = traverse scenario_store_counts_down "A" 2 10.
Proof.
  apply (same_store_same_network scenario_store scenario_store_counts_down "A" 2 10);
    intros pid; reflexivity.
Defined.

(** *** Termination *)

Lemma step_visited_mono db center max_depth s s' x :
  step db center max_depth s s' → x ∈ st_visited s → x ∈ st_visited s'.
Proof.
  destruct 1; simpl; intros Hx; try done; apply elem_of_union; by right.
Qed.

Lemma marks_now_fresh max_depth s x :
  x ∈ marks_now max_depth s → x ∉ st_visited s.
Proof.
  unfold marks_now. destruct (st_queue s) as [|[current d] queue]; [by intros ?%elem_of_nil|].
  destruct (bool_decide (current ∈ st_visited s)) eqn:Hvis; simpl; [by intros ?%elem_of_nil|].
  apply bool_decide_eq_false in Hvis.
  destruct (max_depth <? d); [by intros ?%elem_of_nil|].
  by intros ->%list_elem_of_singleton.
Qed.

Lemma marks_now_NoDup max_depth s : NoDup (marks_now max_depth s).
Proof.
  unfold marks_now. destruct (st_queue s) as [|[current d] queue]; [constructor|].
  destruct (_ || _); [constructor|]. apply NoDup_singleton.
Qed.

Lemma marks_now_visited db center max_depth s s' x :
  step db center max_depth s s' → x ∈ marks_now max_depth s → x ∈ st_visited s'.
Proof.
  unfold marks_now.
  destruct 1 as [current d queue ns es visited Hskip
                |current d queue ns es visited _ _ _
                |current d queue ns es visited paper _ _ _ _
                |current d queue ns es visited paper _ _ _]; simpl.
  1: { replace (bool_decide (current ∈ visited) || (max_depth <? d)) with true;
         [by intros ?%elem_of_nil|].
       symmetry. apply orb_true_iff.
       destruct Hskip; [left; by apply bool_decide_eq_true | right; by apply Z.ltb_lt]. }
  all: destruct (_ || _); [by intros ?%elem_of_nil|].
  all: intros ->%list_elem_of_singleton; apply elem_of_union; left.
  all: by apply elem_of_singleton.
Qed.

(** A paper the loop marks was not visited before. *)
Lemma marked_not_visited db center max_depth max_papers fuel s x :
  x ∈ marked db center max_depth max_papers fuel s → x ∉ st_visited s.
Proof.
  revert s. induction fuel as [|fuel IH]; intros s; simpl; [by intros ?%elem_of_nil|].
  destruct (loop_cond max_papers s); [|by intros ?%elem_of_nil].
  destruct (loop_body db center max_depth s) as [s'|e] eqn:Hb; [|apply marks_now_fresh].
  intros [Hx|Hx]%elem_of_app; [by apply marks_now_fresh in Hx|].
  intros Hvis. apply (IH s' Hx).
  eapply step_visited_mono; eauto using loop_body_step.
Qed.

(** No paper is marked visited twice. *)
Lemma marked_NoDup db center max_depth max_papers fuel s :
  NoDup (marked db center max_depth max_papers fuel s).
Proof.
  revert s. induction fuel as [|fuel IH]; intros s; simpl; [constructor|].
  destruct (loop_cond max_papers s); [|constructor].
  destruct (loop_body db center max_depth s) as [s'|e] eqn:Hb; [|apply marks_now_NoDup].
  apply NoDup_app. split_and!; [apply marks_now_NoDup| |apply IH].
  intros x Hx Hin. apply marked_not_visited in Hin. apply Hin.
  eapply marks_now_visited; eauto using loop_body_step.
Qed.

(** A cycle and a self-citation: A cites itself and B, and B cites A. The
    traversal collects both papers and six edges. *)
Example cyclic_store_terminates :
  ∃ net, traverse cyclic_store "A" 5 10 = Some (Return net)
    ∧ node_ids net = ["A"; "B"] ∧ total_citations net = 6.
Proof. eexists. split; [vm_compute; reflexivity|]. by split. Qed.

(** C9. For every store and all inputs the call finishes: the loop exits
    within [loop_bound] tests of its condition, two per citation row plus
    two, whatever cycles or self-citations the rows contain, and more fuel
    does not change the outcome; no paper is marked visited twice. *)
Theorem build_citation_network_terminates db center_id depth_limit max_papers :
  (∃ r, build_citation_network db center_id depth_limit max_papers = Some r
        ∧ ∀ fuel, (loop_bound db ≤ fuel)%nat →
            build_with_fuel db center_id depth_limit max_papers fuel = Some r)
  ∧ (∃ r, while_loop db center_id depth_limit max_papers (loop_bound db)
            (initial_state center_id) = Some r)
  ∧ ∀ fuel, NoDup (marked db center_id depth_limit max_papers fuel (initial_state center_id)).
Proof.
  split_and!.
  - apply build_total.
  - apply while_loop_terminates, potential_initial.
  - intros fuel. apply marked_NoDup.
Qed.

(** ** The influence calculator *)

(** *** Failures *)

Lemma influence_never_raises db pid :
  ∃ d, calculate_paper_influence db pid = Return d.
Proof.
  unfold calculate_paper_influence, try_except.
  destruct (influence_body db pid); eauto.
Qed.

Lemma influence_body_Return db pid d :
  influence_body db pid = Return d →
  is_Some (paper_row db pid)
  ∧ (∀ q, q ∈ influence_queries pid → failure db q = None)
  ∧ ∃ m, d = MetricsDict m.
Proof.
  unfold influence_body.
  intros (paper & [Hf1 ->]%run_query_Return & Hk)%bind_Return.
  destruct (paper_row db pid) as [paper|]; [|discriminate].
  apply bind_Return in Hk as (direct & [Hf2 _]%run_query_Return & Hk).
  apply bind_Return in Hk as (second & [Hf3 _]%run_query_Return & Hk).
  apply bind_Return in Hk as (citers & [Hf4 _]%run_query_Return & Hk).
  apply bind_Return in Hk as (counts & _ & Hk).
  apply bind_Return in Hk as (score & _ & Hk).
  injection Hk as <-. split_and!; [eauto| |eauto].
  intros q. unfold influence_queries. rewrite !elem_of_cons, elem_of_nil.
  intros [->|[->|[->|[->|[]]]]]; done.
Qed.

(** The claim C3 fails: for a paper that does not exist, and for a store
    whose count queries raise, the call returns the empty dict and no
    exception reaches the caller. *)
Lemma influence_failure_is_not_raised :
  (paper_row scenario_store "Z" = None
   ∧ calculate_paper_influence scenario_store "Z" = Return EmptyDict)
  ∧ (failure scenario_store_counts_down (QCountOfCited "A") = Some "connection lost"
     ∧ calculate_paper_influence scenario_store_counts_down "A" = Return EmptyDict).
Proof. split; split; reflexivity. Qed.

(** C3, amended. [calculate_paper_influence] raises no exception: when the
    paper does not exist, or one of the queries it issues fails, the
    exception is caught and the empty dict is returned, so that no partial
    metrics are returned either. *)
Theorem influence_failure_gives_empty_dict db pid :
  paper_row db pid = None
  ∨ (∃ q, q ∈ influence_queries pid ∧ is_Some (failure db q)) →
  calculate_paper_influence db pid = Return EmptyDict.
Proof.
  intros Hfail. unfold calculate_paper_influence, try_except.
  destruct (influence_body db pid) as [d|e] eqn:Hbody; [|done].
  apply influence_body_Return in Hbody as ([paper Hrow] & Hq & _).
  destruct Hfail as [Hnone|(q & Hin & [msg Hmsg])]; [congruence|].
  rewrite (Hq q Hin) in Hmsg. discriminate.
Qed.

Lemma influence_failure_gives_empty_dict_witness :
  calculate_paper_influence scenario_store "Z" = Return EmptyDict
  ∧ calculate_paper_influence scenario_store_counts_down "A" = Return EmptyDict.
Proof.
  split.
  - apply (influence_failure_gives_empty_dict scenario_store "Z"). left. reflexivity.
  - apply (influence_failure_gives_empty_dict scenario_store_counts_down "A").
    right. exists (QCountSecondOrder "A"). split; [|by eexists].
    unfold influence_queries. rewrite !elem_of_cons. tauto.
Defined.

(** *** The h-index statistic *)

#[local] Instance Z_ge_total : Total Z.ge.
Proof. intros x y. lia. Qed.

#[local] Instance Z_ge_trans : Transitive Z.ge.
Proof. intros x y z. lia. Qed.

Lemma sort_reverse_sorted l : StronglySorted Z.ge (sort_reverse l).
Proof. apply StronglySorted_merge_sort; apply _. Qed.

Lemma sort_reverse_perm l : sort_reverse l ≡ₚ l.
Proof. apply merge_sort_Permutation. Qed.

(** The loop started at index [i] with [h = i] on a descending list: the
    result marks where the counts stop being at least their 1-based index. *)
Lemma h_index_loop_spec l i :
  StronglySorted Z.ge l →
  let h := h_index_loop i i l in
  i ≤ h ≤ i + Z.of_nat (length l)
  ∧ (∀ j x, l !! j = Some x → i + Z.of_nat j < h → i + Z.of_nat j + 1 ≤ x)
  ∧ (∀ j x, l !! j = Some x → h ≤ i + Z.of_nat j → x < i + Z.of_nat j + 1).
Proof.
  intros Hsorted. revert i. induction Hsorted as [|c l Hl IH Hc]; intros i; simpl.
  { split_and!; [lia|lia|intros j x Hx; by rewrite lookup_nil in Hx..]. }
  destruct (i + 1 <=? c) eqn:Hle.
  - apply Z.leb_le in Hle. destruct (IH (i + 1)) as (Hrange & Hbelow & Habove).
    split_and!; [lia|lia| |].
    + intros [|j] x Hx Hlt; simpl in Hx.
      * injection Hx as <-. lia.
      * specialize (Hbelow j x Hx). lia.
    + intros [|j] x Hx Hge; simpl in Hx; [lia|].
      specialize (Habove j x Hx). lia.
  - apply Z.leb_gt in Hle. split_and!; [lia|lia|intros; lia|].
    intros [|j] x Hx _; simpl in Hx.
    + injection Hx as <-. lia.
    + apply list_elem_of_lookup_2 in Hx. eapply Forall_forall in Hc; [|done]. lia.
Qed.

Lemma compute_h_index_largest l :
  StronglySorted Z.ge l → largest_qualifying_index l (compute_h_index l).
Proof.
  intros Hsorted. unfold compute_h_index.
  destruct (h_index_loop_spec l 0 Hsorted) as (Hrange & Hbelow & Habove).
  set (h := h_index_loop 0 0 l) in *. split.
  - destruct (decide (h = 0)) as [|Hne]; [by left|]. right.
    split; [lia|].
    destruct (lookup_lt_is_Some_2 l (Z.to_nat (h - 1))) as [x Hx]; [lia|].
    exists x. split; [done|]. specialize (Hbelow _ _ Hx). lia.
  - intros i (Hi & x & Hx & Hle).
    destruct (decide (i ≤ h)) as [|Hgt]; [done|].
    specialize (Habove _ _ Hx). lia.
Qed.

Lemma influence_Return db pid m :
  calculate_paper_influence db pid = Return (MetricsDict m) →
  ∃ citers counts score,
    query_citing_papers db pid = Return citers
    ∧ citation_counts citers = Return counts
    ∧ query_direct_count db pid = Return (direct_citations m)
    ∧ query_second_order_count db pid = Return (second_order_citations m)
    ∧ h_index m = compute_h_index (sort_reverse counts)
    ∧ compute_influence_score (direct_citations m) (second_order_citations m) (h_index m)
      = Return score
    ∧ metrics_influence_score m = score.
Proof.
  unfold calculate_paper_influence, try_except.
  destruct (influence_body db pid) as [d|e] eqn:Hbody; [|discriminate].
  intros [= ->]. revert Hbody. unfold influence_body.
  intros (paper & _ & Hk)%bind_Return.
  destruct paper as [paper|]; [|discriminate].
  apply bind_Return in Hk as (direct & Hq2 & Hk).
  apply bind_Return in Hk as (second & Hq3 & Hk).
  apply bind_Return in Hk as (citers & Hq4 & Hk).
  apply bind_Return in Hk as (counts & Hcounts & Hk).
  apply bind_Return in Hk as (score & Hscore & Hk).
  injection Hk as <-. simpl. eauto 10.
Qed.

Lemma citation_counts_Return citers counts :
  citation_counts citers = Return counts → Some <$> counts = citation_count <$> citers.
Proof.
  revert counts. induction citers as [|p citers IH]; intros counts; simpl.
  - by intros [= <-].
  - destruct (citation_count p) as [n|]; [|discriminate].
    intros (counts' & Hc & [= <-])%bind_Return. simpl. f_equal. by apply IH.
Qed.

(** C6. Whenever [calculate_paper_influence] returns metrics for a paper,
    their h_index is computed from the direct citers of the paper, the rows
    of the papers table whose paper is the citing paper of a citation row
    that cites the given paper: it is the largest 1-based index i such that
    the i-th of their citation counts, sorted in descending order, is at
    least i (0 when there is none); for the citation counts 10, 8, 5, 4
    and 3 it is 4. *)
Theorem h_index_is_largest_qualifying_index :
  (∀ db pid m,
     calculate_paper_influence db pid = Return (MetricsDict m) →
     ∃ citers counts sorted,
       citers = filter (λ p, Exists (λ c, citing_paper_id c = id p
                                          ∧ cited_paper_id c = pid) (citations db))
                       (papers db)
       ∧ Some <$> counts = citation_count <$> citers
       ∧ sorted ≡ₚ counts ∧ StronglySorted Z.ge sorted
       ∧ largest_qualifying_index sorted (h_index m))
  ∧ compute_h_index (sort_reverse [10; 8; 5; 4; 3]) = 4
  ∧ ∃ m, calculate_paper_influence five_citers_store "P" = Return (MetricsDict m)
         ∧ citation_count <$>
             filter (λ p, Exists (λ c, citing_paper_id c = id p ∧ cited_paper_id c = "P")
                                 (citations five_citers_store))
                    (papers five_citers_store)
           = [Some 5; Some 10; Some 3; Some 8; Some 4]
         ∧ h_index m = 4.
Proof.
  split_and!.
  - intros db pid m (citers & counts & score & Hq & Hc & _ & _ & Hh & _)%influence_Return.
    exists citers, counts, (sort_reverse counts).
    split_and!; [|by apply citation_counts_Return|apply sort_reverse_perm
                |apply sort_reverse_sorted|].
    + by apply run_query_Return in Hq as [_ ->].
    + rewrite Hh. apply compute_h_index_largest, sort_reverse_sorted.
  - reflexivity.
  - eexists. split; [vm_compute; reflexivity |]. split; [|reflexivity].
    vm_compute. reflexivity.
Qed.

Lemma h_index_is_largest_qualifying_index_witness :
  ∃ m, calculate_paper_influence five_citers_store "P" = Return (MetricsDict m)
       ∧ ∃ sorted, sorted ≡ₚ [5; 10; 3; 8; 4] ∧ StronglySorted Z.ge sorted
                   ∧ largest_qualifying_index sorted (h_index m).
Proof.
  destruct h_index_is_largest_qualifying_index as (Hgeneral & _ & m & Hm & Hcounts & _).
  exists m. split; [exact Hm|].
  destruct (Hgeneral five_citers_store "P" m Hm)
    as (citers & counts & sorted & Hq & Hc & Hperm & Hsorted & Hh).
  exists sorted. split; [|by split].
  rewrite <- Hq in Hcounts. rewrite Hcounts in Hc.
  destruct counts as [|c1 [|c2 [|c3 [|c4 [|c5 [|]]]]]]; try discriminate.
  injection Hc as -> -> -> -> ->. exact Hperm.
Defined.

(** *** Signs of rounded results *)

Section rounding_signs.
Variables prec emax : Z.

Lemma shr_1_nonneg mrs : 0 ≤ shr_m mrs → 0 ≤ shr_m (shr_1 mrs).
Proof. destruct mrs as [[|[p|p|]|[p|p|]] r s]; simpl; lia. Qed.

Lemma iter_shr_1_nonneg p mrs : 0 ≤ shr_m mrs → 0 ≤ shr_m (SpecFloat.iter_pos shr_1 p mrs).
Proof.
  revert mrs. induction p as [p IH|p IH|]; intros mrs Hm; simpl;
    auto using shr_1_nonneg.
Qed.

Lemma shr_nonneg mrs e n : 0 ≤ shr_m mrs → 0 ≤ shr_m (shr mrs e n).1.
Proof. destruct n; simpl; auto using iter_shr_1_nonneg. Qed.

Lemma shr_fexp_nonneg m e l : 0 ≤ m → 0 ≤ shr_m (shr_fexp prec emax m e l).1.
Proof.
  intros Hm. unfold shr_fexp. apply shr_nonneg. by destruct l as [|[]].
Qed.

Lemma round_nearest_even_nonneg m l : 0 ≤ m → 0 ≤ round_nearest_even m l.
Proof. destruct l as [|[]]; simpl; [done| |done|lia]. destruct (Z.even m); lia. Qed.

Lemma binary_round_aux_sign s m e l :
  0 ≤ m → has_sign s (binary_round_aux prec emax s m e l).
Proof.
  intros Hm. unfold binary_round_aux.
  pose proof (shr_fexp_nonneg m e l Hm) as H1.
  destruct (shr_fexp prec emax m e l) as [mrs' e']. simpl in H1.
  pose proof (shr_fexp_nonneg (round_nearest_even (shr_m mrs') (loc_of_shr_record mrs'))
                e' loc_Exact (round_nearest_even_nonneg _ _ H1)) as H2.
  destruct (shr_fexp prec emax _ e' loc_Exact) as [mrs'' e'']. simpl in H2.
  destruct (shr_m mrs'') as [|p|p]; simpl; [done| |lia].
  by destruct (e'' <=? emax - prec).
Qed.

Lemma binary_round_sign s m e : has_sign s (binary_round prec emax s m e).
Proof.
  unfold binary_round. destruct (shl_align _ _ _) as [mz ez].
  by apply binary_round_aux_sign.
Qed.

Lemma binary_normalize_sign m e : 0 ≤ m → has_sign false (binary_normalize prec emax m e false).
Proof. destruct m; simpl; [done| |lia]. intros _. apply binary_round_sign. Qed.

Lemma SFmul_sign x m e :
  has_sign false x → has_sign false (SFmul prec emax x (S754_finite false m e)).
Proof.
  destruct x as [[]|[]| |[] mx ex]; simpl; try done.
  intros _. by apply binary_round_aux_sign.
Qed.

Lemma SFadd_sign x y :
  has_sign false x → has_sign false y → has_sign false (SFadd prec emax x y).
Proof.
  destruct x as [[]|[]| |[] mx ex], y as [[]|[]| |[] my ey]; simpl; try done.
  intros _ _. apply binary_round_sign.
Qed.

Lemma SFdiv_core_binary_nonneg m1 e1 m2 e2 :
  0 ≤ m1 → 0 < m2 → 0 ≤ (SFdiv_core_binary prec emax m1 e1 m2 e2).1.1.
Proof.
  intros H1 H2. unfold SFdiv_core_binary.
  set (s := _ - _ - _). 
  set (m' := match s with Z.pos _ => Z.shiftl m1 s | 0 => m1 | Z.neg _ => 0 end).
  assert (0 ≤ m') as Hm'.
  { subst m'. destruct s; [done| |done]. by apply Z.shiftl_nonneg. }
  pose proof (Z.div_pos m' m2 Hm' H2) as Hq. unfold Z.div in Hq.
  destruct (Z.div_eucl m' m2) as [q r]. done.
Qed.

Lemma SFdiv_sign x m e :
  has_sign false x → has_sign false (SFdiv prec emax x (S754_finite false m e)).
Proof.
  destruct x as [[]|[]| |[] mx ex]; simpl; try done.
  intros _.
  pose proof (SFdiv_core_binary_nonneg (Z.pos mx) ex (Z.pos m) e) as Hq.
  destruct (SFdiv_core_binary prec emax (Z.pos mx) ex (Z.pos m) e) as [[mz ez] lz].
  apply binary_round_aux_sign. apply Hq; lia.
Qed.
End rounding_signs.

(** *** The influence score *)

Lemma SFleb_zero x : has_sign false x → SFleb float_0_0 x = true.
Proof. by destruct x as [[]|[]| |[] mx ex]. Qed.

Lemma SFcompare_flip_finite m1 e1 m2 e2 :
  SFcompare (S754_finite false m1 e1) (S754_finite false m2 e2)
  = option_map CompOpp (SFcompare (S754_finite false m2 e2) (S754_finite false m1 e1)).
Proof.
  simpl. rewrite (Z.compare_antisym e1 e2).
  destruct (e1 ?= e2); simpl; try done.
  by rewrite Pos.compare_cont_antisym.
Qed.

(** [min(x, 1.0)] of a float that is neither negative nor a NaN lies
    between 0.0 and 1.0. *)
Lemma py_min_one_bounds x :
  has_sign false x →
  SFleb float_0_0 (py_min x float_1_0) = true
  ∧ SFleb (py_min x float_1_0) float_1_0 = true.
Proof.
  intros Hx. unfold py_min.
  destruct (SFltb float_1_0 x) eqn:Hlt; [done|].
  split; [by apply SFleb_zero|].
  destruct x as [[]|[]| |[] mx ex]; try done.
  unfold SFltb, SFleb, float_1_0 in *.
  rewrite SFcompare_flip_finite in Hlt.
  destruct (SFcompare _ _) as [[]|] eqn:Hcmp; done.
Qed.

Lemma float_of_int_sign z f :
  0 ≤ z → float_of_int z = Return f → has_sign false f.
Proof.
  intros Hz. unfold float_of_int.
  pose proof (binary_normalize_sign prec emax z 0 Hz) as Hs.
  destruct (binary_normalize prec emax z 0 false); [| discriminate | ..]; by intros [= <-].
Qed.

Lemma compute_influence_score_Return direct second_order h score :
  compute_influence_score direct second_order h = Return score →
  ∃ fd fs fh,
    float_of_int direct = Return fd
    ∧ float_of_int second_order = Return fs
    ∧ float_of_int h = Return fh
    ∧ score = py_min (SF64div (SF64add (SF64add (SF64mul fd float_0_5)
                                                (SF64mul fs float_0_3))
                                       (SF64mul fh float_0_2))
                              float_100)
                     float_1_0.
Proof.
  unfold compute_influence_score, int_mul_float, float_div_int.
  intros (a & (fd & Hfd & [= <-])%bind_Return & Hk)%bind_Return.
  apply bind_Return in Hk as (b & (fs & Hfs & [= <-])%bind_Return & Hk).
  apply bind_Return in Hk as (c & (fh & Hfh & [= <-])%bind_Return & Hk).
  apply bind_Return in Hk as (q & (f100 & Hf100 & [= <-])%bind_Return & Hk).
  injection Hk as <-. vm_compute in Hf100. injection Hf100 as <-.
  eauto 10.
Qed.

Lemma compute_influence_score_bounds direct second_order h score :
  0 ≤ direct → 0 ≤ second_order → 0 ≤ h →
  compute_influence_score direct second_order h = Return score →
  SFleb float_0_0 score = true ∧ SFleb score float_1_0 = true.
Proof.
  intros Hd Hs Hh (fd & fs & fh & Hfd & Hfs & Hfh & ->)%compute_influence_score_Return.
  apply py_min_one_bounds. unfold SF64div, SF64add, SF64mul.
  apply SFdiv_sign. repeat apply SFadd_sign; apply SFmul_sign;
    eauto using float_of_int_sign.
Qed.

Lemma h_index_loop_nonneg l i h : 0 ≤ i → 0 ≤ h → 0 ≤ h_index_loop i h l.
Proof.
  revert i h. induction l as [|c l IH]; intros i h Hi Hh; simpl; [done|].
  destruct (i + 1 <=? c); [apply IH; lia | done].
Qed.

Lemma query_direct_count_nonneg db pid n : query_direct_count db pid = Return n → 0 ≤ n.
Proof. intros [_ ->]%run_query_Return. lia. Qed.

Lemma query_second_order_count_nonneg db pid n :
  query_second_order_count db pid = Return n → 0 ≤ n.
Proof. intros [_ ->]%run_query_Return. lia. Qed.

(** C7. Whenever [calculate_paper_influence] returns metrics, their
    influence_score is min((direct_citations * 0.5 + second_order_citations
    * 0.3 + h_index * 0.2) / 100, 1.0), computed in binary64 arithmetic on
    the counts converted to floats, and it lies between 0.0 and 1.0. *)
Theorem influence_score_formula_and_bounds db pid m :
  calculate_paper_influence db pid = Return (MetricsDict m) →
  (∃ fd fs fh,
     float_of_int (direct_citations m) = Return fd
     ∧ float_of_int (second_order_citations m) = Return fs
     ∧ float_of_int (h_index m) = Return fh
     ∧ metrics_influence_score m
       = py_min (SF64div (SF64add (SF64add (SF64mul fd float_0_5)
                                            (SF64mul fs float_0_3))
                                   (SF64mul fh float_0_2))
                          float_100)
                float_1_0)
  ∧ SFleb float_0_0 (metrics_influence_score m) = true
  ∧ SFleb (metrics_influence_score m) float_1_0 = true.
Proof.
  intros (citers & counts & score & _ & _ & Hd & Hs & Hh & Hscore & ->)%influence_Return.
  split; [by apply compute_influence_score_Return|].
  eapply compute_influence_score_bounds; [| | |exact Hscore].
  - by eapply query_direct_count_nonneg.
  - by eapply query_second_order_count_nonneg.
  - rewrite Hh. by apply h_index_loop_nonneg.
Qed.

Lemma influence_score_formula_and_bounds_witness :
  ∃ m, calculate_paper_influence five_citers_store "P" = Return (MetricsDict m)
       ∧ metrics_influence_score m = S754_finite false 4755801206503244 (-57)
       ∧ SFleb float_0_0 (metrics_influence_score m) = true
       ∧ SFleb (metrics_influence_score m) float_1_0 = true.
Proof.
  eexists. split; [vm_compute; reflexivity|]. split; [reflexivity|].
  eapply (influence_score_formula_and_bounds five_citers_store "P"). reflexivity.
Defined.

(** ** Further properties of the specification *)

Lemma depth_zero_inv_step db center max_papers s s' :
  is_Some (paper_row db center) →
  depth_zero_inv center s → loop_cond max_papers s = true →
  step db center 0 s s' → depth_zero_inv center s'.
Proof.
  intros [paper0 Hrow0] [->|(n & Hn & _ & _ & _ & _ & Hq)] [Hne _]%loop_cond_true Hstep;
    [|done].
  inversion Hstep as [current d queue ns es visited Hskip
                     |current d queue ns es visited Hfresh _ Hrow
                     |current d queue ns es visited paper Hfresh _ _ Hrow
                     |current d queue ns es visited paper Hfresh Hlt _]; subst.
  - destruct Hskip as [Hin|?]; [by apply not_elem_of_empty in Hin | lia].
  - congruence.
  - right. eexists. simpl. split_and!; try reflexivity. by apply bool_decide_eq_true.
  - lia.
Qed.

(** X1. The traversal with depth 0 (P5 of the specification). With depth 0
    and max_papers >= 1 the traversal finishes, and the arguments it
    arrives at consist of the center node alone, without edges. *)
Theorem depth_zero_traversal db center_id max_papers :
  1 ≤ max_papers →
  ∃ r, traverse db center_id 0 max_papers = Some r
       ∧ ∀ net, r = Return net →
           (∃ n, nodes net = [n] ∧ node_id n = center_id ∧ is_center n = true
                 ∧ node_depth n = 0)
           ∧ edges net = [] ∧ total_papers net = 1 ∧ total_citations net = 0.
Proof.
  intros Hmax.
  destruct (traverse_total db center_id 0 max_papers) as (r & Hr & _).
  exists r. split; [done|]. intros net ->.
  pose proof Hr as (paper & _ & _ & Hrow & _ & _)%traverse_with_fuel_Return.
  apply (traverse_invariant (depth_zero_inv center_id)) in Hr as (s & Hinv & Hc & ->).
  - destruct Hinv as [->|(n & Hn & Hid & Hcenter & Hdepth & He & _)].
    + apply loop_cond_false in Hc as [Hc|Hc]; [done | simpl in Hc; lia].
    + unfold network_args. simpl. rewrite Hn, He. simpl. eauto 10.
  - intros _ _. by left.
  - intros s s' Hinv Hc Hstep. eapply depth_zero_inv_step; eauto.
Qed.

Lemma depth_zero_traversal_witness :
  ∃ net, traverse scenario_store "A" 0 10 = Some (Return net)
    ∧ (∃ n, nodes net = [n] ∧ node_id n = "A" ∧ is_center n = true ∧ node_depth n = 0)
    ∧ edges net = [] ∧ total_papers net = 1 ∧ total_citations net = 0.
Proof.
  destruct (depth_zero_traversal scenario_store "A" 10) as (r & Hr & Hnet); [lia|].
  destruct (traverse_succeeds scenario_store "A" 0 10) as [net Hbuild];
    [done | vm_compute; eauto |].
  exists net. split; [exact Hbuild|].
  apply Hnet. rewrite Hbuild in Hr. by injection Hr.
Defined.

Lemma filter_none {A} (P : A → Prop) `{∀ x, Decision (P x)} (l : list A) :
  (∀ x, x ∈ l → ¬ P x) → filter P l = [].
Proof.
  induction l as [|x l IH]; [done|]. intros Hl.
  rewrite filter_cons, decide_False; [|apply Hl; by left].
  apply IH. intros y Hy. apply Hl. by right.
Qed.

(** X2. The scenario of the specification for a paper without citations:
    whenever metrics are returned for a paper that no citation row cites,
    direct_citations, second_order_citations and h_index are 0 and the
    influence_score is 0.0. *)
Theorem uncited_paper_metrics db pid m :
  rows_citing db pid = [] →
  calculate_paper_influence db pid = Return (MetricsDict m) →
  direct_citations m = 0 ∧ second_order_citations m = 0 ∧ h_index m = 0
  ∧ metrics_influence_score m = float_0_0.
Proof.
  intros Hrows (citers & counts & score & Hq & Hc & Hd & Hs & Hh & Hscore & ->)%influence_Return.
  apply run_query_Return in Hd as [_ Hd]. apply run_query_Return in Hs as [_ Hs].
  apply run_query_Return in Hq as [_ ->].
  rewrite Hrows in Hd, Hs. simpl in Hd, Hs.
  rewrite filter_none in Hs by (intros c _ []%elem_of_nil). simpl in Hs.
  rewrite filter_none in Hc.
  2: { intros p _ (c & Hin & Hciting & Hcited)%Exists_exists.
       assert (c ∈ rows_citing db pid) as Hc' by by apply rows_citing_spec.
       rewrite Hrows in Hc'. by apply elem_of_nil in Hc'. }
  injection Hc as <-. rewrite Hh, Hd, Hs in Hscore.
  vm_compute in Hscore. injection Hscore as <-.
  rewrite Hh. done.
Qed.

Lemma uncited_paper_metrics_witness :
  ∃ m, calculate_paper_influence scenario_store "D" = Return (MetricsDict m)
       ∧ direct_citations m = 0 ∧ second_order_citations m = 0 ∧ h_index m = 0
       ∧ metrics_influence_score m = float_0_0.
Proof.
  eexists. split; [vm_compute; reflexivity|].
  apply (uncited_paper_metrics scenario_store "D"); reflexivity.
Defined.

(** ** Further properties of the network builder *)

Lemma dict_set_fresh_elem {V} k (v : V) d x :
  k ∉ dict_keys d → x ∈ dict_set k v d ↔ x ∈ d ∨ x = (k, v).
Proof.
  intros Hk. rewrite (dict_set_fresh k v d Hk), elem_of_app, list_elem_of_singleton. done.
Qed.

Lemma dict_keys_elem {V} (d : list (paper_id * V)) k v : (k, v) ∈ d → k ∈ dict_keys d.
Proof. intros Hin. unfold dict_keys. apply list_elem_of_fmap. by exists (k, v). Qed.

Lemma keys_inv_fresh s current :
  keys_inv s → current ∉ st_visited s → current ∉ dict_keys (st_nodes s).
Proof. intros [Hkeys _] Hfresh Hin. by apply Hfresh, Hkeys. Qed.

Lemma keys_inv_step db center max_depth s s' :
  keys_inv s → step db center max_depth s s' → keys_inv s'.
Proof.
  intros Hinv Hstep. pose proof Hinv as [Hkeys Hnodup]. unfold keys_inv.
  destruct Hstep as [current d queue ns es visited _
                    |current d queue ns es visited Hfresh _ _
                    |current d queue ns es visited paper Hfresh _ _ _
                    |current d queue ns es visited paper Hfresh _ _]; simpl in *.
  - done.
  - split; [|done]. intros k Hk. apply elem_of_union. right. by apply Hkeys.
  - pose proof (keys_inv_fresh _ _ Hinv Hfresh) as Hnew. simpl in Hnew. split.
    + intros k [->|Hk]%dict_keys_dict_set; apply elem_of_union;
        [left; by apply elem_of_singleton | right; by apply Hkeys].
    + rewrite dict_set_fresh by done. unfold dict_keys in *. rewrite fmap_app. simpl.
      apply NoDup_app. split_and!; [done| |apply NoDup_singleton].
      intros k Hk ->%list_elem_of_singleton. done.
  - pose proof (keys_inv_fresh _ _ Hinv Hfresh) as Hnew. simpl in Hnew. split.
    + intros k [->|Hk]%dict_keys_dict_set; apply elem_of_union;
        [left; by apply elem_of_singleton | right; by apply Hkeys].
    + rewrite dict_set_fresh by done. unfold dict_keys in *. rewrite fmap_app. simpl.
      apply NoDup_app. split_and!; [done| |apply NoDup_singleton].
      intros k Hk ->%list_elem_of_singleton. done.
Qed.

Lemma nodes_inv_step db center max_depth s s' :
  nodes_inv db center s → step db center max_depth s s' → nodes_inv db center s'.
Proof.
  unfold nodes_inv. intros Hinv Hstep.
  destruct Hstep as [current d queue ns es visited _
                    |current d queue ns es visited _ _ _
                    |current d queue ns es visited paper _ _ _ Hrow
                    |current d queue ns es visited paper _ _ Hrow]; simpl in *; try done.
  all: intros k n [[= -> ->]|Hkn]%elem_of_dict_set; [eauto | by apply Hinv].
Qed.

Lemma edges_inv_step db center max_depth s s' :
  keys_inv s → edges_inv db max_depth s → step db center max_depth s s' →
  edges_inv db max_depth s'.
Proof.
  intros Hkeys [Hsound Hcomplete] Hstep. unfold edges_inv.
  destruct Hstep as [current d queue ns es visited _
                    |current d queue ns es visited _ _ _
                    |current d queue ns es visited paper Hfresh _ Hge _
                    |current d queue ns es visited paper Hfresh Hlt _]; simpl in *;
    try done.
  - (* a node at the depth limit: no new edge, and the new node asks for none *)
    pose proof (keys_inv_fresh _ _ Hkeys Hfresh) as Hnew. simpl in Hnew. split.
    + intros e (c & Hc & -> & k & n & Hkn & Hn & Hinc)%Hsound.
      exists c. split_and!; [done..|]. exists k, n.
      split_and!; [|done..]. apply dict_set_fresh_elem; auto.
    + intros k n c [Hkn|[= -> ->]]%dict_set_fresh_elem; [|simpl; lia|done].
      by apply Hcomplete.
  - (* a node whose citations are followed *)
    pose proof (keys_inv_fresh _ _ Hkeys Hfresh) as Hnew. simpl in Hnew.
    set (node := make_node center current d paper). split.
    + intros e. rewrite !elem_of_app. intros [He|[He|He]].
      * apply Hsound in He as (c & Hc & -> & k & n & Hkn & Hn & Hinc).
        exists c. split_and!; [done..|]. exists k, n.
        split_and!; [|done..]. apply dict_set_fresh_elem; auto.
      * apply list_elem_of_fmap in He as (c & -> & [Hcited Hc]%rows_citing_spec).
        exists c. split_and!; [done|by rewrite <- Hcited|].
        exists current, node. split_and!; [apply dict_set_fresh_elem; auto|done|by right].
      * apply list_elem_of_fmap in He as (c & -> & [Hciting Hc]%rows_cited_by_spec).
        exists c. split_and!; [done|by rewrite <- Hciting|].
        exists current, node. split_and!; [apply dict_set_fresh_elem; auto|done|by left].
    + intros k n c [Hkn|[= -> ->]]%dict_set_fresh_elem; [| |done].
      * intros Hn Hc Hinc. apply elem_of_app. left. by eapply Hcomplete.
      * intros _ Hc [Hciting|Hcited]; rewrite !elem_of_app.
        -- right; right. apply list_elem_of_fmap. exists c.
           split; [unfold edge_of_row; by rewrite Hciting|]. by apply rows_cited_by_spec.
        -- right; left. apply list_elem_of_fmap. exists c.
           split; [unfold edge_of_row; by rewrite Hcited|]. by apply rows_citing_spec.
Qed.

Lemma elem_of_dict_values {V} (d : list (paper_id * V)) v :
  v ∈ dict_values d ↔ ∃ k, (k, v) ∈ d.
Proof.
  unfold dict_values. rewrite list_elem_of_fmap. split.
  - intros ([k v'] & -> & Hin). eauto.
  - intros (k & Hin). by exists (k, v).
Qed.

Lemma ids_inv_elem s k n : ids_inv s → (k, n) ∈ st_nodes s → node_id n = k.
Proof.
  unfold ids_inv. intros Hids Hin.
  apply (proj1 (Forall_forall _ _) Hids (k, n) Hin).
Qed.

(** The context of an edge is the first 100 characters of the context of
    its row, and empty when the row has none. *)
Lemma context_snippet_spec c : context_snippet c = take 100 (default [] (context c)).
Proof.
  unfold context_snippet. destruct (context c) as [s|]; simpl; [|done].
  case_bool_decide as Hs; [by rewrite Hs | done].
Qed.

(** X3. The edges the traversal collects are citation rows: the traversal
    finishes, and every edge in the [edges] argument it arrives at comes
    from a row of the citations table (source the citing paper, target the
    cited paper, the strength of the row, type "cites", and as context the
    first 100 characters of the context of the row, empty when the row has
    none), one end of the row being a node below the depth limit;
    conversely every row with an end at such a node has its edge among
    the edges. *)
Theorem collected_edges_are_citation_rows db center_id depth_limit max_papers :
  ∃ r, traverse db center_id depth_limit max_papers = Some r
       ∧ ∀ args, r = Return args →
           (∀ e, e ∈ edges args →
              ∃ row, row ∈ citations db
                ∧ source e = citing_paper_id row ∧ target e = cited_paper_id row
                ∧ edge_strength e = strength row ∧ edge_type e = "cites"
                ∧ edge_context e = take 100 (default [] (context row))
                ∧ ∃ n, n ∈ nodes args ∧ node_depth n < depth_limit
                       ∧ incident (node_id n) row)
           ∧ (∀ n row, n ∈ nodes args → node_depth n < depth_limit →
                row ∈ citations db → incident (node_id n) row →
                ∃ e, e ∈ edges args
                  ∧ source e = citing_paper_id row ∧ target e = cited_paper_id row
                  ∧ edge_strength e = strength row ∧ edge_type e = "cites"
                  ∧ edge_context e = take 100 (default [] (context row))).
Proof.
  destruct (traverse_total db center_id depth_limit max_papers) as (r & Hr & _).
  exists r. split; [done|]. intros net ->.
  apply (traverse_invariant
           (λ s, ids_inv s ∧ keys_inv s ∧ edges_inv db depth_limit s)) in Hr
    as (s & (Hids & Hkeys & Hsound & Hcomplete) & _ & ->).
  - simpl. split.
    + intros e (row & Hrow & -> & k & n & Hkn & Hn & Hinc)%Hsound.
      exists row. split_and!; try done; [apply context_snippet_spec|].
      exists n. rewrite (ids_inv_elem s k n Hids Hkn).
      split_and!; [apply elem_of_dict_values; eauto|done..].
    + intros n row (k & Hkn)%elem_of_dict_values Hn Hrow Hinc.
      rewrite (ids_inv_elem s k n Hids Hkn) in Hinc.
      exists (edge_of_row row).
      split_and!; try done; [by eapply Hcomplete | apply context_snippet_spec].
  - intros paper _. split_and!.
    + constructor.
    + split; [intros k []%elem_of_nil | constructor].
    + split; [intros e []%elem_of_nil | intros k n c []%elem_of_nil].
  - intros s s' (? & ? & ?) _ Hstep.
    split_and!; eauto using ids_inv_step, keys_inv_step, edges_inv_step.
Qed.

(** X4. The nodes the traversal collects are papers of the store: the
    traversal finishes, and in the [nodes] argument it arrives at no paper
    has two nodes, every node carries the title, the names of the authors
    (the empty string for an author without a name), the year, the
    citation count and the influence score of the paper row with its id,
    and a node is flagged as center exactly when its id is the center's. *)
Theorem collected_nodes_are_papers db center_id depth_limit max_papers :
  ∃ r, traverse db center_id depth_limit max_papers = Some r
       ∧ ∀ args, r = Return args →
           NoDup (node_id <$> nodes args)
           ∧ ∀ n, n ∈ nodes args →
               (∃ paper, paper_row db (node_id n) = Some paper
                  ∧ node_title n = title paper
                  ∧ node_authors n = dict_get "name" "" <$> default [] (authors paper)
                  ∧ node_publication_year n = publication_year paper
                  ∧ node_citation_count n = citation_count paper
                  ∧ node_influence_score n = influence_score paper)
               ∧ (is_center n = true ↔ node_id n = center_id).
Proof.
  destruct (traverse_total db center_id depth_limit max_papers) as (r & Hr & _).
  exists r. split; [done|]. intros net ->.
  apply (traverse_invariant
           (λ s, ids_inv s ∧ keys_inv s ∧ nodes_inv db center_id s)) in Hr
    as (s & (Hids & [_ Hnodup] & Hnodes) & _ & ->).
  - unfold node_ids. simpl. rewrite (ids_inv_keys s Hids). split; [done|].
    intros n (k & Hkn)%elem_of_dict_values.
    destruct (Hnodes k n Hkn) as (paper & Hrow & Hn).
    rewrite (ids_inv_elem s k n Hids Hkn). split.
    + exists paper. rewrite Hn. by split_and!.
    + rewrite Hn. simpl. apply bool_decide_eq_true.
  - intros paper _. split_and!.
    + constructor.
    + split; [intros k []%elem_of_nil | constructor].
    + intros k n []%elem_of_nil.
  - intros s s' (? & ? & ?) _ Hstep.
    split_and!; eauto using ids_inv_step, keys_inv_step, nodes_inv_step.
Qed.

Lemma run_query_Raise {A} db q (rows : A) e :
  run_query db q rows = Raise e → ∃ msg, failure db q = Some msg ∧ e = StoreError msg.
Proof. unfold run_query. destruct (failure db q) as [msg|]; [|discriminate]. intros [= <-]. eauto. Qed.

Lemma bind_Raise {A B} (m : result A) (k : A → result B) e :
  bind m k = Raise e → m = Raise e ∨ ∃ a, m = Return a ∧ k a = Raise e.
Proof. destruct m as [a|e']; simpl; [eauto | intros [= <-]; by left]. Qed.

(** The body of the loop raises only the exception of a failed query. *)
Lemma loop_body_Raise db center max_depth max_papers s e :
  loop_cond max_papers s = true → loop_body db center max_depth s = Raise e →
  ∃ q msg, failure db q = Some msg ∧ e = StoreError msg.
Proof.
  intros [Hq _]%loop_cond_true. unfold loop_body.
  destruct (st_queue s) as [|[current d] queue]; [done|].
  destruct (_ || _); [discriminate|].
  intros [Hp|(paper & _ & Hk)]%bind_Raise.
  { apply run_query_Raise in Hp as (msg & ? & ?). eauto. }
  destruct paper as [paper|]; [|discriminate].
  destruct (d <? max_depth); [|discriminate].
  apply bind_Raise in Hk as [Hc|(citing & _ & Hk)].
  { apply run_query_Raise in Hc as (msg & ? & ?). eauto. }
  apply bind_Raise in Hk as [Hc|(cited & _ & Hk)]; [|discriminate].
  apply run_query_Raise in Hc as (msg & ? & ?). eauto.
Qed.

Lemma while_loop_Raise db center max_depth max_papers fuel s e :
  while_loop db center max_depth max_papers fuel s = Some (Raise e) →
  ∃ q msg, failure db q = Some msg ∧ e = StoreError msg.
Proof.
  revert s. induction fuel as [|fuel IH]; intros s; simpl; [discriminate|].
  destruct (loop_cond max_papers s) eqn:Hc; [|discriminate].
  destruct (loop_body db center max_depth s) as [s'|e'] eqn:Hb; [apply IH|].
  intros [= ->]. by eapply loop_body_Raise.
Qed.

(** The outcomes of the traversal: it finishes; the constructor is reached
    only when the center paper exists, with the center id and the depth
    passed in and the lengths of the two lists; [ValueError] is raised
    exactly for a center query that finds no row; every other exception is
    that of a failed query, and the queue is never popped when empty. *)
Lemma traverse_outcomes db center_id depth_limit max_papers :
  ∃ r, traverse db center_id depth_limit max_papers = Some r
    ∧ match r with
      | Return net =>
        failure db (QPaperFirst center_id) = None ∧ is_Some (paper_row db center_id)
        ∧ center_paper_id net = center_id ∧ depth net = depth_limit
        ∧ total_papers net = Z.of_nat (length (nodes net))
        ∧ total_citations net = Z.of_nat (length (edges net))
      | Raise e =>
        (failure db (QPaperFirst center_id) = None ∧ paper_row db center_id = None
         ∧ e = ValueError (String.append "Paper not found: " center_id))
        ∨ (∃ q msg, failure db q = Some msg ∧ e = StoreError msg)
      end
    ∧ (failure db (QPaperFirst center_id) = None → paper_row db center_id = None →
       r = Raise (ValueError (String.append "Paper not found: " center_id)))
    ∧ (never_fails db → (is_Some (paper_row db center_id) ↔ ∃ net, r = Return net)).
Proof.
  destruct (traverse_total db center_id depth_limit max_papers) as (r & Hr & _).
  exists r. split; [done|].
  assert (Hcases : match r with
      | Return net =>
        failure db (QPaperFirst center_id) = None ∧ is_Some (paper_row db center_id)
        ∧ center_paper_id net = center_id ∧ depth net = depth_limit
        ∧ total_papers net = Z.of_nat (length (nodes net))
        ∧ total_citations net = Z.of_nat (length (edges net))
      | Raise e =>
        (failure db (QPaperFirst center_id) = None ∧ paper_row db center_id = None
         ∧ e = ValueError (String.append "Paper not found: " center_id))
        ∨ (∃ q msg, failure db q = Some msg ∧ e = StoreError msg)
      end).
  { destruct r as [net|e].
    - apply traverse_with_fuel_Return in Hr as (paper & s & Hf & Hrow & _ & ->).
      split_and!; eauto.
    - revert Hr. unfold traverse, traverse_with_fuel, query_paper, run_query.
      destruct (failure db (QPaperFirst center_id)) as [msg|] eqn:Hf.
      { intros [= <-]. right. eauto. }
      destruct (paper_row db center_id) as [paper|]; [|intros [= <-]; by left].
      destruct (while_loop _ _ _ _ _ _) as [[s|e']|] eqn:Hloop; try discriminate.
      intros [= ->]. right. by eapply while_loop_Raise. }
  split; [done|]. split.
  { intros Hf Hrow. revert Hr.
    unfold traverse, traverse_with_fuel, query_paper, run_query.
    rewrite Hf, Hrow. by intros [= <-]. }
  intros Hnf. split.
  - intros Hrow. destruct (traverse_succeeds db center_id depth_limit max_papers Hnf Hrow)
      as [net Hnet]. exists net. congruence.
  - intros [net ->]. by destruct Hcases as (_ & ? & _).
Qed.

(** The fields the errors of the call report as missing. *)
Lemma call_errors_missing args loc :
  {| error_loc := loc; error_type := missing |} ∈ call_errors args ↔
    loc = [LocName "total_nodes"] ∨ loc = [LocName "total_edges"]
    ∨ (∃ i, (i < length (nodes args))%nat
            ∧ loc = [LocName "nodes"; LocIndex i; LocName "paper_id"])
    ∨ (∃ i, (i < length (edges args))%nat
            ∧ (loc = [LocName "edges"; LocIndex i; LocName "source_id"]
               ∨ loc = [LocName "edges"; LocIndex i; LocName "target_id"])).
Proof.
  unfold call_errors. rewrite !elem_of_app, !list_elem_of_join. split.
  - intros [(l & Hl & (i & n & -> & Hi)%elem_of_lookup_imap)
           |[(l & Hl & (i & e & -> & Hi)%elem_of_lookup_imap)|Hl]].
    + right; right; left. exists i. split; [by eapply lookup_lt_Some|].
      revert Hl. unfold node_errors, field_error.
      destruct (node_citation_count n), (node_influence_score n); simpl;
        rewrite ?elem_of_cons, elem_of_nil; intros H; destruct_or!; by simplify_eq.
    + right; right; right. exists i. split; [by eapply lookup_lt_Some|].
      revert Hl. unfold edge_errors, field_error.
      destruct (edge_strength e); simpl;
        rewrite ?elem_of_cons, elem_of_nil; intros H; destruct_or!; simplify_eq; auto.
    + revert Hl. unfold field_error. simpl.
      rewrite !elem_of_cons, elem_of_nil. intros H; destruct_or!; simplify_eq; auto.
  - intros [->|[->|[(i & Hi & ->)|(i & Hi & Hloc)]]].
    + right; right. apply list_elem_of_here.
    + right; right. apply list_elem_of_further, list_elem_of_here.
    + left. apply lookup_lt_is_Some_2 in Hi as [n Hn].
      exists (node_errors [LocName "nodes"; LocIndex i] n). split.
      * apply list_elem_of_here.
      * by apply (elem_of_lookup_imap_2 (λ i, node_errors [LocName "nodes"; LocIndex i])).
    + right; left. apply lookup_lt_is_Some_2 in Hi as [e He].
      exists (edge_errors [LocName "edges"; LocIndex i] e). split.
      * destruct Hloc as [-> | ->];
          [apply list_elem_of_here | apply list_elem_of_further, list_elem_of_here].
      * by apply (elem_of_lookup_imap_2 (λ i, edge_errors [LocName "edges"; LocIndex i])).
Qed.

(** X5. The outcomes of a call for a center id in canonical form: it
    finishes and it raises, for no call returns a network. [ValueError]
    ("Paper not found") is raised exactly for a center query that finds no
    row, and a failed query raises its exception. Every other call, and so every call for an existing center
    paper in a session whose queries do not fail, completes the traversal
    and raises [ValidationError] at the constructor of line 113; the
    fields its errors report as missing are [paper_id] in every node,
    [source_id] and [target_id] in every edge, and the arguments
    [total_nodes] and [total_edges]. *)
Theorem build_citation_network_outcomes db center_id depth_limit max_papers :
  ∃ e, build_citation_network db center_id depth_limit max_papers = Some (Raise e)
    ∧ ((failure db (QPaperFirst center_id) = None ∧ paper_row db center_id = None
        ∧ e = ValueError (String.append "Paper not found: " center_id))
       ∨ (∃ q msg, failure db q = Some msg ∧ e = StoreError msg)
       ∨ (∃ args errors,
            traverse db center_id depth_limit max_papers = Some (Return args)
            ∧ failure db (QPaperFirst center_id) = None
            ∧ is_Some (paper_row db center_id)
            ∧ e = ValidationError "CitationNetwork" errors
            ∧ ∀ loc, {| error_loc := loc; error_type := missing |} ∈ errors ↔
                loc = [LocName "total_nodes"] ∨ loc = [LocName "total_edges"]
                ∨ (∃ i, (i < length (nodes args))%nat
                        ∧ loc = [LocName "nodes"; LocIndex i; LocName "paper_id"])
                ∨ (∃ i, (i < length (edges args))%nat
                        ∧ (loc = [LocName "edges"; LocIndex i; LocName "source_id"]
                           ∨ loc = [LocName "edges"; LocIndex i; LocName "target_id"]))))
    ∧ (failure db (QPaperFirst center_id) = None → paper_row db center_id = None →
       e = ValueError (String.append "Paper not found: " center_id))
    ∧ (never_fails db → is_Some (paper_row db center_id) →
       ∃ errors, e = ValidationError "CitationNetwork" errors).
Proof.
  destruct (traverse_outcomes db center_id depth_limit max_papers)
    as (r & Hr & Hcases & Hmissing & Hreturn).
  rewrite build_traverse, Hr. destruct r as [args|e].
  - exists (ValidationError "CitationNetwork" (call_errors args)).
    destruct Hcases as (Hf & Hrow & _). split_and!; [done| | |by eauto].
    + right; right. exists args, (call_errors args).
      split_and!; [done..|]. apply call_errors_missing.
    + intros _ Hnone. rewrite Hnone in Hrow. by destruct Hrow.
  - exists e. split_and!; [done| | |].
    + destruct Hcases as [?|?]; [by left | right; by left].
    + intros Hf Hrow. specialize (Hmissing Hf Hrow). by injection Hmissing.
    + intros Hnf Hrow. apply Hreturn in Hrow as [net Hnet]; [discriminate|done].
Qed.

Lemma empty_inv_step db center max_depth max_papers s s' :
  max_papers ≤ 0 ∨ max_depth < 0 →
  empty_inv center s → loop_cond max_papers s = true →
  step db center max_depth s s' → empty_inv center s'.
Proof.
  intros Hlimits (Hn & He & Hq) [Hne Hlt]%loop_cond_true Hstep.
  rewrite Hn in Hlt. simpl in Hlt.
  destruct Hq as [[Hq Hv]|Hq]; [|done].
  destruct Hstep as [current d queue ns es visited _
                    |current d queue ns es visited _ Hd _
                    |current d queue ns es visited paper _ Hd _ _
                    |current d queue ns es visited paper _ Hd _]; simpl in *;
    injection Hq as -> -> ->; try lia.
  unfold empty_inv. simpl. auto.
Qed.

Lemma traverse_degenerate db center max_depth max_papers net :
  max_papers ≤ 0 ∨ max_depth < 0 →
  traverse db center max_depth max_papers = Some (Return net) →
  nodes net = [] ∧ edges net = [] ∧ total_papers net = 0 ∧ total_citations net = 0.
Proof.
  intros Hlimits Hr.
  apply (traverse_invariant (empty_inv center)) in Hr as (s & (Hn & He & _) & _ & ->).
  - unfold network_args. simpl. by rewrite Hn, He.
  - intros _ _. unfold empty_inv. simpl. auto.
  - intros s s'. by apply empty_inv_step.
Qed.

(** X6. A cap without room or a negative depth limit is not checked: the
    traversal finishes and collects nothing, not even the center node, and
    the call then raises [ValidationError] for the two arguments
    [total_nodes] and [total_edges] alone. *)
Theorem degenerate_limits_collect_nothing db center_id depth_limit max_papers :
  max_papers ≤ 0 ∨ depth_limit < 0 →
  ∃ r, traverse db center_id depth_limit max_papers = Some r
       ∧ ∀ args, r = Return args →
           nodes args = [] ∧ edges args = []
           ∧ total_papers args = 0 ∧ total_citations args = 0
           ∧ build_citation_network db center_id depth_limit max_papers
             = Some (Raise (ValidationError "CitationNetwork"
                 [argument_missing "total_nodes"; argument_missing "total_edges"])).
Proof.
  intros Hlimits.
  destruct (traverse_total db center_id depth_limit max_papers) as (r & Hr & _).
  exists r. split; [done|]. intros args ->.
  destruct (traverse_degenerate db center_id depth_limit max_papers args Hlimits Hr)
    as (Hn & He & ? & ?).
  split_and!; [done..|]. rewrite build_traverse, Hr.
  unfold call_errors. by rewrite Hn, He.
Qed.

Lemma degenerate_limits_collect_nothing_witness :
  (∃ args, traverse scenario_store "A" (-1) 10 = Some (Return args)
     ∧ nodes args = [] ∧ edges args = []
     ∧ build_citation_network scenario_store "A" (-1) 10
       = Some (Raise (ValidationError "CitationNetwork"
           [argument_missing "total_nodes"; argument_missing "total_edges"])))
  ∧ (∃ args, traverse scenario_store "A" 2 0 = Some (Return args)
     ∧ nodes args = [] ∧ edges args = []
     ∧ build_citation_network scenario_store "A" 2 0
       = Some (Raise (ValidationError "CitationNetwork"
           [argument_missing "total_nodes"; argument_missing "total_edges"]))).
Proof.
  split.
  - destruct (degenerate_limits_collect_nothing scenario_store "A" (-1) 10)
      as (r & Hr & Hnet); [right; lia|].
    destruct (traverse_succeeds scenario_store "A" (-1) 10) as [args Hbuild];
      [done | vm_compute; eauto |].
    exists args. split; [exact Hbuild|].
    rewrite Hbuild in Hr. injection Hr as <-.
    destruct (Hnet args eq_refl) as (? & ? & _ & _ & ?). by split_and!.
  - destruct (degenerate_limits_collect_nothing scenario_store "A" 2 0)
      as (r & Hr & Hnet); [left; lia|].
    destruct (traverse_succeeds scenario_store "A" 2 0) as [args Hbuild];
      [done | vm_compute; eauto |].
    exists args. split; [exact Hbuild|].
    rewrite Hbuild in Hr. injection Hr as <-.
    destruct (Hnet args eq_refl) as (? & ? & _ & _ & ?). by split_and!.
Defined.

(** *** Depths are distances *)

Lemma walk_nonneg db x y k : walk db x y k → 0 ≤ k.
Proof. induction 1; lia. Qed.

(** A walk that leaves a set of papers crosses its border. *)
Lemma walk_frontier db (visited : gset paper_id) center x j :
  walk db center x j → center ∈ visited → x ∉ visited →
  ∃ p q i, walk db center p i ∧ p ∈ visited ∧ (q ∉ visited) ∧ adjacent db p q ∧ i + 1 ≤ j.
Proof.
  induction 1 as [|y z k Hwalk IH Hadj]; intros Hc Hx; [done|].
  destruct (decide (y ∈ visited)) as [Hy|Hy].
  - exists y, z, k. split_and!; [done..|lia].
  - destruct (IH Hc Hy) as (p & q & i & ? & ? & ? & ? & ?).
    exists p, q, i. split_and!; [done..|lia].
Qed.

Lemma levelled_app queue pushes d :
  levelled queue → (∀ e, e ∈ pushes → e.2 = d) →
  (∀ e, e ∈ queue → e.2 ≤ d ≤ e.2 + 1) → levelled (queue ++ pushes).
Proof.
  intros Hq Hp. induction queue as [|e queue IH]; simpl; intros Hd.
  - induction pushes as [|e pushes IHp]; simpl; [done|]. split.
    + intros e' He'. rewrite (Hp e), (Hp e'); [lia|by right|by left].
    + apply IHp. intros e' He'. apply Hp. by right.
  - destruct Hq as [Hhead Hq]. split.
    + intros e' [He'|He']%elem_of_app; [by apply Hhead|].
      rewrite (Hp e' He'). apply Hd. by left.
    + apply IH; [done|]. intros e' He'. apply Hd. by right.
Qed.

(** The head of the queue has the least depth in it: no walk to an
    unvisited head is shorter than its queued depth. *)
Lemma head_depth_minimal db center max_depth ns es visited current d queue :
  let s := {| st_nodes := ns; st_edges := es; st_visited := visited;
              st_queue := (current, d) :: queue |} in
  bfs_inv db center max_depth s →
  (∀ x, x ∈ visited → x ∈ dict_keys ns) →
  current ∉ visited →
  ∀ j, walk db center current j → d ≤ j.
Proof.
  intros s (Hc & [Hhead _] & Hq & Hn & Hadj) Hvis Hfresh j Hwalk. simpl in *.
  destruct Hc as [Hc|[[= -> ->] _]]; [|by eapply walk_nonneg].
  destruct (walk_frontier db visited center current j Hwalk Hc Hfresh)
    as (p & q & i & Hp & Hpv & Hqv & Hpq & Hi).
  apply Hvis in Hpv. unfold dict_keys in Hpv.
  apply list_elem_of_fmap in Hpv as ([p' n] & -> & Hpn). simpl in *.
  destruct (Hn p' n Hpn) as [_ Hmin]. specialize (Hmin i Hp).
  destruct (Hq current d) as [_ Hd]; [by left|].
  destruct (decide (node_depth n < max_depth)) as [Hlt|Hge]; [|lia].
  destruct (Hadj p' n q Hpn Hlt Hpq) as [?|[[= -> Hdq]|Hin]%elem_of_cons]; [done|lia|].
  specialize (Hhead _ Hin). simpl in Hhead. lia.
Qed.

Lemma levelled_tail_bounds current d queue e :
  levelled ((current, d) :: queue) → e ∈ queue → e.2 ≤ d + 1 ≤ e.2 + 1.
Proof. intros [Hhead _] He. specialize (Hhead e He). simpl in Hhead. lia. Qed.

Lemma adjacent_rows db current y :
  adjacent db current y →
  (∃ c, c ∈ rows_citing db current ∧ citing_paper_id c = y)
  ∨ (∃ c, c ∈ rows_cited_by db current ∧ cited_paper_id c = y).
Proof.
  intros (c & Hc & [[Hx Hy]|[Hy Hx]]).
  - right. exists c. split; [by apply rows_cited_by_spec|done].
  - left. exists c. split; [by apply rows_citing_spec|done].
Qed.

Lemma bfs_inv_step db center max_depth s s' :
  keys_inv s → closure_inv db max_depth s → bfs_inv db center max_depth s →
  step db center max_depth s s' → bfs_inv db center max_depth s'.
Proof.
  intros Hkeys (Hvis & Hrows & _) Hinv Hstep.
  pose proof Hinv as (Hc & Hlev & Hq & Hn & Hadj).
  destruct Hstep as [current d queue ns es visited Hskip
                    |current d queue ns es visited Hfresh _ Hrow
                    |current d queue ns es visited paper Hfresh Hle Hge _
                    |current d queue ns es visited paper Hfresh Hlt _]; simpl in *.
  - (* the entry is dropped: its paper is visited *)
    assert (Hin : current ∈ visited).
    { destruct Hskip as [?|Hd]; [done|]. destruct (Hq current d); [by left|lia]. }
    destruct Hc as [Hc|[_ ->]]; [|by apply not_elem_of_empty in Hin].
    split_and!; [by left|by destruct Hlev| |done|]; simpl.
    + intros x k Hx. apply Hq. by right.
    + intros x n y Hxn Hlt Hxy.
      destruct (Hadj x n y Hxn Hlt Hxy) as [?|[[= -> _]|?]%elem_of_cons]; auto.
  - (* no paper row: excluded by the foreign keys *)
    destruct (Hrows current d) as [? ?]; [by left | congruence].
  - (* a node at the depth limit *)
    pose proof (keys_inv_fresh _ _ Hkeys Hfresh) as Hnew. simpl in Hnew.
    pose proof (head_depth_minimal db center max_depth ns es visited current d queue
                  Hinv Hvis Hfresh) as Hmin.
    split_and!; simpl.
    + left. destruct Hc as [?|[[= -> -> ->] _]]; apply elem_of_union;
        [by right | left; by apply elem_of_singleton].
    + by destruct Hlev.
    + intros x k Hx. apply Hq. by right.
    + intros x n [Hxn|[= -> ->]]%dict_set_fresh_elem; [by apply Hn| |done].
      simpl. split; [|done]. apply Hq. by left.
    + intros x n y [Hxn|[= -> ->]]%dict_set_fresh_elem; [| |done].
      * intros Hlt Hxy. rewrite elem_of_union, elem_of_singleton.
        destruct (Hadj x n y Hxn Hlt Hxy) as [?|[[= -> _]|?]%elem_of_cons]; auto.
      * simpl. lia.
  - (* a node whose citations are followed *)
    pose proof (keys_inv_fresh _ _ Hkeys Hfresh) as Hnew. simpl in Hnew.
    pose proof (head_depth_minimal db center max_depth ns es visited current d queue
                  Hinv Hvis Hfresh) as Hmin.
    destruct (Hq current d) as [Hwalk _]; [by left|].
    split_and!; simpl.
    + left. destruct Hc as [?|[[= -> -> ->] _]]; apply elem_of_union;
        [by right | left; by apply elem_of_singleton].
    + rewrite app_assoc. apply levelled_app with (d := d + 1).
      * apply levelled_app with (d := d + 1); [by destruct Hlev| |].
        -- by intros [x k] (c & ? & ? & ? & ?)%elem_of_citing_pushes.
        -- intros e He. exact (levelled_tail_bounds current d queue e Hlev He).
      * by intros [x k] (c & ? & ? & ? & ?)%elem_of_cited_pushes.
      * intros e [He|He]%elem_of_app;
          [exact (levelled_tail_bounds current d queue e Hlev He)|].
        destruct e as [x k]. apply elem_of_citing_pushes in He as (c & _ & _ & _ & ->).
        simpl. lia.
    + intros x k. rewrite !elem_of_app. intros [Hx|[Hx|Hx]].
      * apply Hq. by right.
      * apply elem_of_citing_pushes in Hx as (c & [Hcited Hin]%rows_citing_spec & _ & -> & ->).
        split; [|lia]. apply (walk_step db center current); [done|].
        exists c. split; [done|]. by right.
      * apply elem_of_cited_pushes in Hx as (c & [Hciting Hin]%rows_cited_by_spec & _ & -> & ->).
        split; [|lia]. apply (walk_step db center current); [done|].
        exists c. split; [done|]. by left.
    + intros x n [Hxn|[= -> ->]]%dict_set_fresh_elem; [by apply Hn| |done].
      simpl. split; [done|done].
    + intros x n y [Hxn|[= -> ->]]%dict_set_fresh_elem; [| |done].
      * intros Hn_lt Hxy. rewrite elem_of_union, elem_of_singleton, !elem_of_app.
        destruct (Hadj x n y Hxn Hn_lt Hxy) as [?|[[= -> _]|?]%elem_of_cons]; auto.
      * simpl. intros _ Hxy.
        destruct (decide (y ∈ {[current]} ∪ visited)) as [?|Hy]; [by left|right].
        rewrite !elem_of_app.
        apply adjacent_rows in Hxy as [(c & Hin & <-)|(c & Hin & <-)].
        -- right; left. apply elem_of_citing_pushes. eauto.
        -- right; right. apply elem_of_cited_pushes. eauto.
Qed.

Lemma closure_inv_initial db center max_depth paper :
  paper_row db center = Some paper → closure_inv db max_depth (initial_state center).
Proof.
  intros Hrow. split_and!; simpl.
  - intros x []%not_elem_of_empty.
  - intros x k [= -> ->]%list_elem_of_singleton. eauto.
  - intros e []%elem_of_nil.
Qed.

Lemma bfs_inv_initial db center max_depth :
  0 ≤ max_depth → bfs_inv db center max_depth (initial_state center).
Proof.
  intros Hd. split_and!; simpl.
  - by right.
  - split; [intros e []%elem_of_nil | done].
  - intros x k [= -> ->]%list_elem_of_singleton. split; [constructor | done].
  - intros x n []%elem_of_nil.
  - intros x n y []%elem_of_nil.
Qed.

(** The state the loop ends in when the foreign keys hold and the depth
    limit is not negative. *)
Lemma traverse_bfs_invariant db center max_depth max_papers net :
  foreign_keys_hold db → 0 ≤ max_depth →
  traverse db center max_depth max_papers = Some (Return net) →
  ∃ s, ids_inv s ∧ keys_inv s ∧ closure_inv db max_depth s ∧ bfs_inv db center max_depth s
       ∧ loop_cond max_papers s = false ∧ net = network_args center max_depth s.
Proof.
  intros Hfk Hd Hr.
  apply (traverse_invariant
           (λ s, ids_inv s ∧ keys_inv s ∧ closure_inv db max_depth s
                 ∧ bfs_inv db center max_depth s)) in Hr
    as (s & (? & ? & ? & ?) & ? & ?); [eauto 10| |].
  - intros paper Hrow. split_and!.
    + constructor.
    + split; [intros k []%elem_of_nil | constructor].
    + by eapply closure_inv_initial.
    + by apply bfs_inv_initial.
  - intros s s' (? & ? & ? & ?) _ Hstep.
    split_and!; eauto using ids_inv_step, keys_inv_step, closure_inv_step, bfs_inv_step.
Qed.

(** X7. The depth of a node is its distance from the center: when the foreign
    keys of the citations table hold, the traversal finishes, and every
    node it has collected is reached from the center along as many
    citation rows, followed in either direction, as its depth says, and
    along no fewer. *)
Theorem node_depth_is_distance db center_id depth_limit max_papers :
  foreign_keys_hold db →
  ∃ r, traverse db center_id depth_limit max_papers = Some r
       ∧ ∀ net, r = Return net →
           ∀ n, n ∈ nodes net →
             walk db center_id (node_id n) (node_depth n)
             ∧ ∀ j, walk db center_id (node_id n) j → node_depth n ≤ j.
Proof.
  intros Hfk.
  destruct (traverse_total db center_id depth_limit max_papers) as (r & Hr & _).
  exists r. split; [done|]. intros net ->.
  destruct (decide (0 ≤ depth_limit)) as [Hd|Hd].
  - apply traverse_bfs_invariant in Hr
      as (s & Hids & _ & _ & (_ & _ & _ & Hn & _) & _ & ->); [|done..].
    simpl. intros n (k & Hkn)%elem_of_dict_values.
    rewrite (ids_inv_elem s k n Hids Hkn). by apply Hn.
  - apply traverse_degenerate in Hr as (-> & _); [|lia].
    intros n []%elem_of_nil.
Qed.

Lemma node_depth_is_distance_witness :
  ∃ net, traverse scenario_store "A" 2 10 = Some (Return net)
    ∧ ∀ n, n ∈ nodes net →
        walk scenario_store "A" (node_id n) (node_depth n)
        ∧ ∀ j, walk scenario_store "A" (node_id n) j → node_depth n ≤ j.
Proof.
  destruct (node_depth_is_distance scenario_store "A" 2 10 scenario_store_foreign_keys)
    as (r & Hr & Hnet).
  destruct (traverse_succeeds scenario_store "A" 2 10) as [net Hbuild];
    [done | vm_compute; eauto |].
  exists net. split; [exact Hbuild|].
  apply Hnet. rewrite Hbuild in Hr. by injection Hr.
Defined.

(** X8. Below the cap the traversal is complete: when the foreign keys hold
    the traversal finishes, and when it has collected fewer than max_papers
    nodes, every paper within depth citation rows of the center is among
    them. *)
Theorem papers_within_depth_are_nodes db center_id depth_limit max_papers :
  foreign_keys_hold db →
  ∃ r, traverse db center_id depth_limit max_papers = Some r
       ∧ ∀ net, r = Return net → total_papers net < max_papers →
           ∀ x j, walk db center_id x j → j ≤ depth_limit → x ∈ node_ids net.
Proof.
  intros Hfk.
  destruct (traverse_total db center_id depth_limit max_papers) as (r & Hr & _).
  exists r. split; [done|]. intros net -> Hcap x j Hwalk Hj.
  assert (0 ≤ depth_limit) as Hd by (apply walk_nonneg in Hwalk; lia).
  apply traverse_bfs_invariant in Hr
    as (s & Hids & _ & (Hvis & _) & (Hc & _ & _ & Hn & Hadj) & Hcond & ->); [|done..].
  unfold node_ids. simpl in *. rewrite (ids_inv_keys s Hids).
  unfold dict_values in Hcap. rewrite length_fmap in Hcap.
  apply loop_cond_false in Hcond as [Hq|?]; [|lia].
  rewrite Hq in Hc, Hadj. destruct Hc as [Hc|[[=] _]].
  apply Hvis. induction Hwalk as [|y z k Hwalk IH Hyz]; [done|].
  assert (y ∈ st_visited s) as Hy by (apply IH; lia).
  apply Hvis in Hy. unfold dict_keys in Hy.
  apply list_elem_of_fmap in Hy as ([y' n] & -> & Hyn). simpl in *.
  destruct (Hn y' n Hyn) as [_ Hmin]. specialize (Hmin k Hwalk).
  destruct (Hadj y' n z Hyn) as [?|[]%elem_of_nil]; [lia|done..].
Qed.

Lemma papers_within_depth_are_nodes_witness :
  ∃ net, traverse scenario_store "A" 2 10 = Some (Return net)
    ∧ total_papers net < 10
    ∧ ∀ x j, walk scenario_store "A" x j → j ≤ 2 → x ∈ node_ids net.
Proof.
  destruct (papers_within_depth_are_nodes scenario_store "A" 2 10
              scenario_store_foreign_keys) as (r & Hr & Hnet).
  destruct (traverse_succeeds scenario_store "A" 2 10) as [net Hbuild];
    [done | vm_compute; eauto |].
  exists net. split; [exact Hbuild|].
  rewrite Hbuild in Hr. injection Hr as <-.
  assert (Hlt : total_papers net < 10).
  { revert Hbuild. vm_compute. intros [= <-]. reflexivity. }
  split; [exact Hlt | exact (Hnet net eq_refl Hlt)].
Defined.

(** ** The lists of citing and referenced papers *)

Lemma paper_row_id db pid paper : paper_row db pid = Some paper → id paper = pid.
Proof.
  unfold paper_row. intros Hhead.
  assert (paper ∈ filter (λ p, id p = pid) (papers db)) as Hin.
  { destruct (filter _ _) as [|p l]; [discriminate|]. injection Hhead as ->. by left. }
  by apply list_elem_of_filter in Hin as [? _].
Qed.

Lemma sql_limit_Return {A} limit (rows rows' : list A) :
  sql_limit limit rows = Return rows' → 0 ≤ limit ∧ rows' = take (Z.to_nat limit) rows.
Proof.
  unfold sql_limit. destruct (limit <? 0) eqn:Hneg; [discriminate|].
  apply Z.ltb_ge in Hneg. by intros [= <-].
Qed.

Lemma elem_of_join_papers db other_end rows c p :
  (c, p) ∈ join_papers db other_end rows ↔ c ∈ rows ∧ paper_row db (other_end c) = Some p.
Proof.
  unfold join_papers. rewrite list_elem_of_omap. split.
  - intros (c' & Hc' & Hp). destruct (paper_row db (other_end c')) as [p'|] eqn:Hrow;
      [|discriminate]. simpl in Hp. by injection Hp as -> ->.
  - intros [Hc Hrow]. exists c. rewrite Hrow. done.
Qed.

(** Under the foreign keys the join loses no citation row. *)
Lemma join_papers_complete db other_end rows :
  (∀ c, c ∈ rows → is_Some (paper_row db (other_end c))) →
  (λ cp, cp.1) <$> join_papers db other_end rows = rows
  ∧ Forall (λ cp, id cp.2 = other_end cp.1) (join_papers db other_end rows).
Proof.
  unfold join_papers. induction rows as [|c rows IH]; intros Hrows; csimpl; [done|].
  destruct (Hrows c) as [p Hp]; [by left|]. rewrite Hp. csimpl.
  destruct IH as [IH1 IH2]; [intros c' Hc'; apply Hrows; by right|].
  split; [by f_equal|]. constructor; [|done]. simpl. by eapply paper_row_id.
Qed.

Lemma collect_entries_Return lib rows entries :
  collect_entries lib rows = Return entries →
  entries = (λ cp, make_entry cp.1 cp.2) <$> rows
  ∧ ∀ cp, cp ∈ rows → library_failure lib (QRelatedPaper (id cp.2)) = None.
Proof.
  revert entries. induction rows as [|[c p] rows IH]; intros entries; simpl.
  - intros [= <-]. split; [done|]. intros cp []%elem_of_nil.
  - intros (related & Hload & Hk)%bind_Return.
    apply bind_Return in Hk as (entries' & Hrest & [= <-]).
    unfold load_related, run_library_query in Hload.
    destruct (library_failure lib (QRelatedPaper (id p))) eqn:Hf; [discriminate|].
    injection Hload as <-. destruct (IH entries' Hrest) as [-> Hfs].
    split; [done|]. intros cp [->|Hcp]%elem_of_cons; [done | by apply Hfs].
Qed.

Lemma collect_entries_never_fails lib rows :
  (∀ q, library_failure lib q = None) →
  collect_entries lib rows = Return ((λ cp, make_entry cp.1 cp.2) <$> rows).
Proof.
  intros Hnf. induction rows as [|[c p] rows IH]; simpl; [done|].
  unfold load_related, run_library_query. rewrite Hnf. simpl. by rewrite IH.
Qed.

Lemma elem_of_take_inv {A} (l : list A) n x : x ∈ take n l → x ∈ l.
Proof. intros (i & Hi & _)%elem_of_take. by eapply list_elem_of_lookup_2. Qed.

(** What a list function returns, in terms of the rows selected. *)
Lemma list_body_Return lib q (rows : list (Citation * Paper)) limit entries :
  try_except
    (citations ←r (limited ←r sql_limit limit rows; run_library_query lib q limited);
     collect_entries lib citations)
    (λ _, Return []) = Return entries →
  entries = []
  ∨ (0 ≤ limit ∧ library_failure lib q = None
     ∧ entries = (λ cp, make_entry cp.1 cp.2) <$> take (Z.to_nat limit) rows).
Proof.
  unfold try_except.
  destruct (bind _ _) as [entries'|e] eqn:Hbody; [|intros [= <-]; by left].
  intros [= ->]. right.
  apply bind_Return in Hbody as (citations & Hq & Hcollect).
  apply bind_Return in Hq as (limited & [Hlimit ->]%sql_limit_Return & Hrun).
  unfold run_library_query in Hrun.
  destruct (library_failure lib q); [discriminate|]. injection Hrun as <-.
  by apply collect_entries_Return in Hcollect as [-> _].
Qed.

(** X10. [get_citing_papers] and [get_referenced_papers] raise no exception and
    return at most [limit] entries; every entry of the one is made from a
    citation row whose cited paper is the given one and from the row of
    its citing paper, every entry of the other from a row whose citing
    paper is the given one and from the row of its cited paper, with the
    context and the strength of the citation row unchanged. *)
Theorem listed_papers_are_citation_rows lib pid limit :
  (∃ entries, get_citing_papers lib pid limit = Return entries
     ∧ Z.of_nat (length entries) ≤ Z.max 0 limit
     ∧ ∀ e, e ∈ entries →
         ∃ row paper, row ∈ citations (session lib) ∧ cited_paper_id row = pid
           ∧ paper_row (session lib) (citing_paper_id row) = Some paper
           ∧ e = make_entry row paper ∧ entry_paper_id e = citing_paper_id row)
  ∧ (∃ entries, get_referenced_papers lib pid limit = Return entries
     ∧ Z.of_nat (length entries) ≤ Z.max 0 limit
     ∧ ∀ e, e ∈ entries →
         ∃ row paper, row ∈ citations (session lib) ∧ citing_paper_id row = pid
           ∧ paper_row (session lib) (cited_paper_id row) = Some paper
           ∧ e = make_entry row paper ∧ entry_paper_id e = cited_paper_id row).
Proof.
  split.
  - destruct (get_citing_papers lib pid limit) as [entries|e] eqn:Hget.
    2: { revert Hget. unfold get_citing_papers, try_except. by destruct (bind _ _). }
    exists entries. split; [done|].
    apply list_body_Return in Hget as [->|(Hlimit & _ & ->)].
    { split; [simpl; lia | intros e []%elem_of_nil]. }
    split.
    + rewrite length_fmap, length_take. lia.
    + intros e ([c p] & -> & Hin%elem_of_take_inv)%list_elem_of_fmap.
      apply elem_of_join_papers in Hin as [[Hcited Hc]%rows_citing_spec Hp].
      exists c, p. split_and!; try done. simpl. by eapply paper_row_id.
  - destruct (get_referenced_papers lib pid limit) as [entries|e] eqn:Hget.
    2: { revert Hget. unfold get_referenced_papers, try_except. by destruct (bind _ _). }
    exists entries. split; [done|].
    apply list_body_Return in Hget as [->|(Hlimit & _ & ->)].
    { split; [simpl; lia | intros e []%elem_of_nil]. }
    split.
    + rewrite length_fmap, length_take. lia.
    + intros e ([c p] & -> & Hin%elem_of_take_inv)%list_elem_of_fmap.
      apply elem_of_join_papers in Hin as [[Hciting Hc]%rows_cited_by_spec Hp].
      exists c, p. split_and!; try done. simpl. by eapply paper_row_id.
Qed.

Lemma get_citing_papers_never_fails lib pid limit :
  library_never_fails lib → 0 ≤ limit →
  get_citing_papers lib pid limit
  = Return ((λ cp, make_entry cp.1 cp.2) <$>
              take (Z.to_nat limit)
                (join_papers (session lib) citing_paper_id (rows_citing (session lib) pid))).
Proof.
  intros [_ Hnf] Hlimit.
  unfold get_citing_papers, query_citing_join, sql_limit, run_library_query.
  destruct (limit <? 0) eqn:Hneg; [apply Z.ltb_lt in Hneg; lia|].
  simpl. rewrite Hnf. simpl. by rewrite collect_entries_never_fails.
Qed.

Lemma get_referenced_papers_never_fails lib pid limit :
  library_never_fails lib → 0 ≤ limit →
  get_referenced_papers lib pid limit
  = Return ((λ cp, make_entry cp.1 cp.2) <$>
              take (Z.to_nat limit)
                (join_papers (session lib) cited_paper_id (rows_cited_by (session lib) pid))).
Proof.
  intros [_ Hnf] Hlimit.
  unfold get_referenced_papers, query_referenced_join, sql_limit, run_library_query.
  destruct (limit <? 0) eqn:Hneg; [apply Z.ltb_lt in Hneg; lia|].
  simpl. rewrite Hnf. simpl. by rewrite collect_entries_never_fails.
Qed.

Lemma foreign_keys_rows db c :
  foreign_keys_hold db → c ∈ citations db →
  is_Some (paper_row db (citing_paper_id c)) ∧ is_Some (paper_row db (cited_paper_id c)).
Proof.
  unfold foreign_keys_hold. intros Hfk Hc.
  apply (proj1 (Forall_forall _ _) Hfk c Hc).
Qed.

(** The ids and the citation rows behind the entries of a complete join. *)
Lemma joined_entries db other_end rows n :
  (∀ c, c ∈ rows → is_Some (paper_row db (other_end c))) → (length rows ≤ n)%nat →
  entry_paper_id <$> ((λ cp, make_entry cp.1 cp.2) <$> take n (join_papers db other_end rows))
  = other_end <$> rows
  ∧ citation_context <$> ((λ cp, make_entry cp.1 cp.2) <$> take n (join_papers db other_end rows))
    = context <$> rows
  ∧ length (take n (join_papers db other_end rows)) = length rows.
Proof.
  intros Hrows Hn. destruct (join_papers_complete db other_end rows Hrows) as [Hfst Hids].
  assert (length (join_papers db other_end rows) = length rows) as Hlen.
  { by rewrite <- Hfst at 2; rewrite length_fmap. }
  rewrite take_ge by lia. split_and!; [| |done].
  - rewrite <- Hfst at 2. rewrite <- !list_fmap_compose.
    apply Forall_fmap_ext_1. eapply Forall_impl; [exact Hids|]. by intros [c p].
  - rewrite <- Hfst at 2. by rewrite <- !list_fmap_compose.
Qed.

(** X11. With a limit that does not cut, and when no query fails and the
    foreign keys hold, [get_citing_papers] lists the citing paper of every
    citation row of the paper, in table order and with the row's context,
    and as many entries as [calculate_paper_influence] counts direct
    citations; [get_referenced_papers] lists the cited paper of every row
    in which the paper cites. *)
Theorem listed_papers_are_complete lib pid limit :
  library_never_fails lib → foreign_keys_hold (session lib) →
  Z.of_nat (length (rows_citing (session lib) pid)) ≤ limit →
  Z.of_nat (length (rows_cited_by (session lib) pid)) ≤ limit →
  (∃ entries, get_citing_papers lib pid limit = Return entries
     ∧ entry_paper_id <$> entries = citing_paper_id <$> rows_citing (session lib) pid
     ∧ citation_context <$> entries = context <$> rows_citing (session lib) pid
     ∧ ∀ m, calculate_paper_influence (session lib) pid = Return (MetricsDict m) →
            direct_citations m = Z.of_nat (length entries))
  ∧ (∃ entries, get_referenced_papers lib pid limit = Return entries
     ∧ entry_paper_id <$> entries = cited_paper_id <$> rows_cited_by (session lib) pid
     ∧ citation_context <$> entries = context <$> rows_cited_by (session lib) pid).
Proof.
  intros Hnf Hfk Hciting Hcited. split.
  - eexists. split; [apply get_citing_papers_never_fails; [done|lia]|].
    destruct (joined_entries (session lib) citing_paper_id (rows_citing (session lib) pid)
                (Z.to_nat limit)) as (Hids & Hctx & Hlen); [|lia|].
    { intros c [_ Hc]%rows_citing_spec. by apply foreign_keys_rows. }
    split_and!; [done..|].
    intros m (_ & _ & _ & _ & _ & [_ ->]%run_query_Return & _)%influence_Return.
    by rewrite length_fmap, Hlen.
  - eexists. split; [apply get_referenced_papers_never_fails; [done|lia]|].
    destruct (joined_entries (session lib) cited_paper_id (rows_cited_by (session lib) pid)
                (Z.to_nat limit)) as (Hids & Hctx & Hlen); [|lia|].
    { intros c [_ Hc]%rows_cited_by_spec. by apply foreign_keys_rows. }
    by split.
Qed.

Lemma scenario_library_never_fails : library_never_fails scenario_library.
Proof. by split. Qed.

Lemma listed_papers_are_complete_witness :
  ∃ entries, get_citing_papers scenario_library "A" 20 = Return entries
    ∧ entry_paper_id <$> entries = ["B"; "C"]
    ∧ ∀ m, calculate_paper_influence scenario_store "A" = Return (MetricsDict m) →
           direct_citations m = 2.
Proof.
  destruct (listed_papers_are_complete scenario_library "A" 20
              scenario_library_never_fails scenario_store_foreign_keys)
    as [(entries & Hget & Hids & _ & Hcount) _]; [simpl; lia..|].
  exists entries. split; [exact Hget|]. split; [exact Hids|].
  intros m Hm. rewrite (Hcount m Hm).
  revert Hget. vm_compute. intros [= <-]. reflexivity.
Defined.

(** X12. Citing and being referenced are two views of the same rows: when no
    query fails, the foreign keys hold and the limits do not cut, paper b is
    listed among the papers citing a exactly when a is listed among the
    papers referenced by b. *)
Theorem citing_and_referenced_agree lib a b limit :
  library_never_fails lib → foreign_keys_hold (session lib) →
  Z.of_nat (length (rows_citing (session lib) a)) ≤ limit →
  Z.of_nat (length (rows_cited_by (session lib) b)) ≤ limit →
  ∃ citing referenced,
    get_citing_papers lib a limit = Return citing
    ∧ get_referenced_papers lib b limit = Return referenced
    ∧ (b ∈ entry_paper_id <$> citing ↔ a ∈ entry_paper_id <$> referenced).
Proof.
  intros Hnf Hfk Ha Hb.
  eexists _, _. split; [apply get_citing_papers_never_fails; [done|lia]|].
  split; [apply get_referenced_papers_never_fails; [done|lia]|].
  destruct (joined_entries (session lib) citing_paper_id (rows_citing (session lib) a)
              (Z.to_nat limit)) as (-> & _ & _); [|lia|].
  { intros c [_ Hc]%rows_citing_spec. by apply foreign_keys_rows. }
  destruct (joined_entries (session lib) cited_paper_id (rows_cited_by (session lib) b)
              (Z.to_nat limit)) as (-> & _ & _); [|lia|].
  { intros c [_ Hc]%rows_cited_by_spec. by apply foreign_keys_rows. }
  rewrite !list_elem_of_fmap. split.
  - intros (c & -> & [Hcited Hc]%rows_citing_spec). exists c.
    split; [done|]. by apply rows_cited_by_spec.
  - intros (c & -> & [Hciting Hc]%rows_cited_by_spec). exists c.
    split; [done|]. by apply rows_citing_spec.
Qed.

Lemma citing_and_referenced_agree_witness :
  ∃ citing referenced,
    get_citing_papers scenario_library "A" 20 = Return citing
    ∧ get_referenced_papers scenario_library "B" 20 = Return referenced
    ∧ ("B" ∈ entry_paper_id <$> citing ↔ "A" ∈ entry_paper_id <$> referenced).
Proof.
  apply (citing_and_referenced_agree scenario_library "A" "B" 20
           scenario_library_never_fails scenario_store_foreign_keys); simpl; lia.
Defined.

(** With depth >= 1 the rows at the center have their edges, and the edges
    at the center are rows at the center. *)
Lemma traverse_center_rows db center max_depth max_papers net :
  1 ≤ max_depth → 1 ≤ max_papers →
  traverse db center max_depth max_papers = Some (Return net) →
  (∀ row, row ∈ citations db → incident center row → edge_of_row row ∈ edges net)
  ∧ (∀ e, e ∈ edges net → ∃ row, row ∈ citations db ∧ e = edge_of_row row).
Proof.
  intros Hd Hm Hr.
  pose proof Hr as (paper & _ & _ & Hrow & _ & _)%traverse_with_fuel_Return.
  apply (traverse_invariant
           (λ s, ids_inv s ∧ keys_inv s ∧ edges_inv db max_depth s ∧ center_inv center s))
    in Hr as (s & (Hids & Hkeys & [Hsound Hcomplete] & Hcenter) & Hcond & ->).
  - simpl. split.
    + destruct Hcenter as [->|(_ & _ & n & Hn & Hid & Hdepth)].
      { apply loop_cond_false in Hcond as [Hc|Hc]; [done | simpl in Hc; lia]. }
      assert (n ∈ center_nodes (dict_values (st_nodes s))) as Hin by (rewrite Hn; by left).
      apply list_elem_of_filter in Hin as [_ (k & Hkn)%elem_of_dict_values].
      intros row Hrow_in Hinc. apply (Hcomplete k n row Hkn); [lia|done|].
      by rewrite <- (ids_inv_elem s k n Hids Hkn), Hid.
    + intros e (row & ? & ? & _)%Hsound. eauto.
  - intros _ _. split_and!.
    + constructor.
    + split; [intros k []%elem_of_nil | constructor].
    + split; [intros e []%elem_of_nil | intros k n c []%elem_of_nil].
    + by left.
  - intros s s' (? & ? & ? & ?) _ Hstep.
    split_and!; eauto using ids_inv_step, keys_inv_step, edges_inv_step.
    eapply center_inv_step; eauto. lia.
Qed.

(** X13. The lists and the traversal agree at the center: when no query
    fails, the foreign keys hold and the limit does not cut, the papers
    [get_citing_papers] lists for a paper are the sources of the edges into
    it that the traversal around it with depth >= 1 collects, and the
    papers [get_referenced_papers] lists are the targets of its edges. *)
Theorem lists_agree_with_traversal lib pid depth_limit max_papers limit net :
  library_never_fails lib → foreign_keys_hold (session lib) →
  1 ≤ depth_limit → 1 ≤ max_papers →
  Z.of_nat (length (rows_citing (session lib) pid)) ≤ limit →
  Z.of_nat (length (rows_cited_by (session lib) pid)) ≤ limit →
  traverse (session lib) pid depth_limit max_papers = Some (Return net) →
  ∃ citing referenced,
    get_citing_papers lib pid limit = Return citing
    ∧ get_referenced_papers lib pid limit = Return referenced
    ∧ (∀ x, x ∈ entry_paper_id <$> citing
            ↔ ∃ e, e ∈ edges net ∧ source e = x ∧ target e = pid)
    ∧ (∀ x, x ∈ entry_paper_id <$> referenced
            ↔ ∃ e, e ∈ edges net ∧ source e = pid ∧ target e = x).
Proof.
  intros Hnf Hfk Hd Hm Hciting Hcited Hbuild.
  destruct (traverse_center_rows _ _ _ _ _ Hd Hm Hbuild) as [Hcomplete Hsound].
  eexists _, _. split; [apply get_citing_papers_never_fails; [done|lia]|].
  split; [apply get_referenced_papers_never_fails; [done|lia]|].
  destruct (joined_entries (session lib) citing_paper_id (rows_citing (session lib) pid)
              (Z.to_nat limit)) as (-> & _ & _); [|lia|].
  { intros c [_ Hc]%rows_citing_spec. by apply foreign_keys_rows. }
  destruct (joined_entries (session lib) cited_paper_id (rows_cited_by (session lib) pid)
              (Z.to_nat limit)) as (-> & _ & _); [|lia|].
  { intros c [_ Hc]%rows_cited_by_spec. by apply foreign_keys_rows. }
  split; intros x; rewrite list_elem_of_fmap; split.
  - intros (c & -> & [Hc_cited Hc]%rows_citing_spec).
    exists (edge_of_row c). split_and!; [|done..]. apply Hcomplete; [done | by right].
  - intros (e & (c & Hc & ->)%Hsound & <- & Htgt). exists c.
    split; [done|]. by apply rows_citing_spec.
  - intros (c & -> & [Hc_citing Hc]%rows_cited_by_spec).
    exists (edge_of_row c). split_and!; [|done..]. apply Hcomplete; [done | by left].
  - intros (e & (c & Hc & ->)%Hsound & Hsrc & <-). exists c.
    split; [done|]. by apply rows_cited_by_spec.
Qed.

Lemma lists_agree_with_traversal_witness :
  ∃ net citing,
    traverse scenario_store "A" 2 10 = Some (Return net)
    ∧ get_citing_papers scenario_library "A" 20 = Return citing
    ∧ ∀ x, x ∈ entry_paper_id <$> citing
           ↔ ∃ e, e ∈ edges net ∧ source e = x ∧ target e = "A".
Proof.
  destruct (traverse_succeeds scenario_store "A" 2 10) as [net Hbuild];
    [done | vm_compute; eauto |].
  destruct (lists_agree_with_traversal scenario_library "A" 2 10 20 net
              scenario_library_never_fails scenario_store_foreign_keys)
    as (citing & referenced & Hciting & _ & Hagree & _);
    [lia | lia | simpl; lia | simpl; lia | exact Hbuild |].
  exists net, citing. by split_and!.
Defined.

(** ** The endpoints *)

Lemma get_user_paper_None lib user pid :
  get_user_paper lib user pid = None ↔
  is_Some (library_failure lib (QUserPaperFirst user pid))
  ∨ ∀ up, up ∈ user_papers lib →
          ¬ (user_paper_user_id up = user ∧ user_paper_paper_id up = pid).
Proof.
  unfold get_user_paper.
  destruct (library_failure lib (QUserPaperFirst user pid)) as [msg|];
    [split; [left; eauto | done]|].
  split.
  - intros Hhead. right. intros up Hup Hmatch.
    assert (up ∈ filter (λ up, user_paper_user_id up = user ∧ user_paper_paper_id up = pid)
                        (user_papers lib)) as Hin by by apply list_elem_of_filter.
    destruct (filter _ _); [by apply elem_of_nil in Hin | discriminate].
  - intros [[? [=]]|Hnone].
    destruct (filter _ _) as [|up l] eqn:Hf; [done|].
    assert (up ∈ filter (λ up, user_paper_user_id up = user ∧ user_paper_paper_id up = pid)
                        (user_papers lib)) as Hin by (rewrite Hf; by left).
    apply list_elem_of_filter in Hin as [Hmatch Hup]. by destruct (Hnone up Hup).
Qed.

Lemma get_user_paper_Some lib user pid up :
  get_user_paper lib user pid = Some up →
  up ∈ user_papers lib ∧ user_paper_user_id up = user ∧ user_paper_paper_id up = pid.
Proof.
  unfold get_user_paper.
  destruct (library_failure lib (QUserPaperFirst user pid)); [discriminate|].
  intros Hhead.
  assert (up ∈ filter (λ up, user_paper_user_id up = user ∧ user_paper_paper_id up = pid)
                      (user_papers lib)) as Hin.
  { destruct (filter _ _) as [|up' l]; [discriminate|]. injection Hhead as ->. by left. }
  apply list_elem_of_filter in Hin as [[? ?] ?]. done.
Qed.

(** X14. Access control: a user without a relationship row for the paper is
    answered 403 by all four endpoints, whatever the store holds, and so is
    every user while the relationship lookup fails; conversely a 403 is
    answered in these two cases only. *)
Theorem endpoints_deny_without_relationship lib user pid depth_limit max_papers limit :
  (is_Some (library_failure lib (QUserPaperFirst user pid))
   ∨ ∀ up, up ∈ user_papers lib →
           ¬ (user_paper_user_id up = user ∧ user_paper_paper_id up = pid))
  ↔ get_citation_network lib user pid depth_limit max_papers = Some access_denied
    ∧ get_citing_papers_endpoint lib user pid limit = access_denied
    ∧ get_referenced_papers_endpoint lib user pid limit = access_denied
    ∧ get_paper_influence lib user pid = access_denied.
Proof.
  rewrite <- get_user_paper_None. split.
  - intros Hnone. unfold get_citation_network, get_citing_papers_endpoint,
      get_referenced_papers_endpoint, get_paper_influence. by rewrite Hnone.
  - intros (_ & _ & _ & Hinfluence). revert Hinfluence. unfold get_paper_influence.
    destruct (get_user_paper lib user pid); [|done].
    by destruct (calculate_paper_influence _ _).
Qed.

(** X15. The answers to a user with a relationship row for the paper: the
    network endpoint always answers 500 "Failed to retrieve citation
    network", whatever the store holds, because the service raises on every
    call (a missing paper included, for which no 404 is answered); the
    three other endpoints never answer 500, since their services return an
    empty result instead of raising. *)
Theorem endpoints_with_access lib user pid depth_limit max_papers limit up :
  get_user_paper lib user pid = Some up →
  get_citation_network lib user pid depth_limit max_papers
  = Some (HTTPException 500 "Failed to retrieve citation network")
  ∧ (∃ entries, get_citing_papers_endpoint lib user pid limit = Response entries
       ∧ get_citing_papers lib pid limit = Return entries
       ∧ Z.of_nat (length entries) ≤ Z.max 0 limit)
  ∧ (∃ entries, get_referenced_papers_endpoint lib user pid limit = Response entries
       ∧ get_referenced_papers lib pid limit = Return entries
       ∧ Z.of_nat (length entries) ≤ Z.max 0 limit)
  ∧ (∃ d, get_paper_influence lib user pid = Response d
       ∧ calculate_paper_influence (session lib) pid = Return d).
Proof.
  intros Haccess.
  unfold get_citation_network, get_citing_papers_endpoint, get_referenced_papers_endpoint,
    get_paper_influence. rewrite Haccess. split_and!.
  - rewrite build_traverse.
    destruct (traverse_total (session lib) pid depth_limit max_papers) as (r & -> & _).
    by destruct r.
  - destruct (get_citing_papers lib pid limit) as [entries|e] eqn:Hget.
    2: { revert Hget. unfold get_citing_papers, try_except. by destruct (bind _ _). }
    exists entries. split_and!; [done..|].
    apply list_body_Return in Hget as [->|(Hlimit & _ & ->)]; [simpl; lia|].
    rewrite length_fmap, length_take. lia.
  - destruct (get_referenced_papers lib pid limit) as [entries|e] eqn:Hget.
    2: { revert Hget. unfold get_referenced_papers, try_except. by destruct (bind _ _). }
    exists entries. split_and!; [done..|].
    apply list_body_Return in Hget as [->|(Hlimit & _ & ->)]; [simpl; lia|].
    rewrite length_fmap, length_take. lia.
  - destruct (influence_never_raises (session lib) pid) as [d ->]. eauto.
Qed.

Lemma endpoints_with_access_witness :
  get_citation_network scenario_library "ann" "A" 2 10
  = Some (HTTPException 500 "Failed to retrieve citation network")
  ∧ (∃ entries, get_citing_papers_endpoint scenario_library "ann" "A" 20 = Response entries)
  ∧ (∃ d, get_paper_influence scenario_library "ann" "A" = Response d).
Proof.
  destruct (endpoints_with_access scenario_library "ann" "A" 2 10 20
              {| user_paper_user_id := "ann"; user_paper_paper_id := "A";
                 user_paper_status := READING |} eq_refl)
    as (Hnetwork & (entries & Hentries & _) & _ & (d & Hd & _)).
  split_and!; [exact Hnetwork|by exists entries|by exists d].
Defined.

Lemma endpoints_deny_without_relationship_witness :
  get_paper_influence scenario_library "bob" "A" = access_denied
  ∧ get_paper_influence scenario_library_lookup_down "ann" "A" = access_denied.
Proof.
  split.
  - apply (endpoints_deny_without_relationship scenario_library "bob" "A" 2 10 20).
    right. intros up. simpl. rewrite !elem_of_cons, elem_of_nil.
    intros [->|[->|[]]] [? ?]; discriminate.
  - apply (endpoints_deny_without_relationship scenario_library_lookup_down "ann" "A" 2 10 20).
    left. simpl. eauto.
Defined.

(** ** Further properties of the influence calculator *)

Lemma h_index_loop_upper l i h : h ≤ i → h_index_loop i h l ≤ i + Z.of_nat (length l).
Proof.
  revert i h. induction l as [|c l IH]; intros i h Hh; simpl; [lia|].
  destruct (i + 1 <=? c); [|lia].
  specialize (IH (i + 1) (i + 1)). lia.
Qed.

Lemma citation_counts_length citers counts :
  citation_counts citers = Return counts → length counts = length citers.
Proof.
  intros Hc%citation_counts_Return.
  by rewrite <- (length_fmap Some counts), Hc, length_fmap.
Qed.

(** Under the primary key there are no more citing papers than citing rows. *)
Lemma citing_papers_le_rows db pid citers :
  primary_key_holds db →
  query_citing_papers db pid = Return citers →
  (length citers ≤ length (rows_citing db pid))%nat.
Proof.
  intros Hpk [_ ->]%run_query_Return.
  set (citers := filter _ (papers db)).
  rewrite <- (length_fmap id citers), <- (length_fmap citing_paper_id (rows_citing db pid)).
  apply submseteq_length, NoDup_submseteq.
  - eapply sublist_NoDup; [exact Hpk|]. apply fmap_sublist, sublist_filter.
  - intros x (p & -> & [(c & Hc & Hciting & Hcited)%Exists_exists _]%list_elem_of_filter)
             %list_elem_of_fmap.
    apply list_elem_of_fmap. exists c. split; [done|]. by apply rows_citing_spec.
Qed.

(** X16. The h-index is bounded by the citations: whenever metrics are returned
    and the primary key of the papers table holds, 0 <= h_index <=
    direct_citations, and direct_citations is the number of citation rows
    whose cited paper is the given one. *)
Theorem h_index_at_most_direct_citations db pid m :
  primary_key_holds db →
  calculate_paper_influence db pid = Return (MetricsDict m) →
  0 ≤ h_index m ≤ direct_citations m
  ∧ direct_citations m = Z.of_nat (length (rows_citing db pid))
  ∧ metrics_paper_id m = pid.
Proof.
  intros Hpk Hm.
  assert (metrics_paper_id m = pid) as Hid.
  { revert Hm. unfold calculate_paper_influence, try_except.
    destruct (influence_body db pid) as [d|] eqn:Hbody; [|discriminate]. intros [= ->].
    revert Hbody. unfold influence_body.
    intros (paper & _ & Hk)%bind_Return. destruct paper; [|discriminate].
    repeat (apply bind_Return in Hk as (? & _ & Hk)). by injection Hk as <-. }
  apply influence_Return in Hm
    as (citers & counts & score & Hq & Hc & [_ Hd]%run_query_Return & _ & Hh & _).
  split_and!; [| |done..].
  - rewrite Hh. by apply h_index_loop_nonneg.
  - rewrite Hh, Hd. unfold compute_h_index.
    pose proof (h_index_loop_upper (sort_reverse counts) 0 0 ltac:(lia)) as Hup.
    pose proof (Permutation_length (sort_reverse_perm counts)) as Hperm.
    pose proof (citation_counts_length _ _ Hc).
    pose proof (citing_papers_le_rows db pid citers Hpk Hq). lia.
Qed.

Lemma five_citers_primary_key : primary_key_holds five_citers_store.
Proof. unfold primary_key_holds. apply (bool_decide_unpack _). vm_compute. exact I. Qed.

Lemma h_index_at_most_direct_citations_witness :
  ∃ m, calculate_paper_influence five_citers_store "P" = Return (MetricsDict m)
       ∧ 0 ≤ h_index m ≤ direct_citations m
       ∧ direct_citations m = 5.
Proof.
  eexists. split; [vm_compute; reflexivity|].
  destruct (h_index_at_most_direct_citations five_citers_store "P" _
              five_citers_primary_key eq_refl) as (Hh & _ & _).
  split; [exact Hh | reflexivity].
Defined.

(** ** The order of the nodes and the number of edges *)

Lemma Sorted_snoc_le (l : list Z) x :
  Sorted Z.le l → (∀ y, y ∈ l → y ≤ x) → Sorted Z.le (l ++ [x]).
Proof.
  induction 1 as [|y l Hl IH Hhd]; intros Hle; simpl.
  - repeat constructor.
  - constructor.
    + apply IH. intros z Hz. apply Hle. by right.
    + destruct l as [|z l]; simpl; constructor.
      * apply Hle. by left.
      * by inversion Hhd.
Qed.

Lemma layer_inv_add center current d paper ns queue :
  current ∉ dict_keys ns →
  layer_inv {| st_nodes := ns; st_edges := []; st_visited := ∅;
               st_queue := (current, d) :: queue |} →
  Sorted Z.le (node_depth <$> dict_values (dict_set current (make_node center current d paper) ns))
  ∧ (∀ n, n ∈ dict_values (dict_set current (make_node center current d paper) ns) →
          0 ≤ node_depth n ∧ node_depth n ≤ d).
Proof.
  intros Hnew (Hlev & Hpos & Hsorted & Hnodes & Hle). simpl in *.
  rewrite dict_set_fresh by done. unfold dict_values in *. rewrite !fmap_app. simpl.
  split.
  - apply Sorted_snoc_le; [done|].
    intros y (n & -> & Hn)%list_elem_of_fmap. apply (Hle n (current, d)); [done | by left].
  - intros n [Hn|Hn]%elem_of_app.
    + split; [by apply Hnodes|]. apply (Hle n (current, d)); [done | by left].
    + apply list_elem_of_singleton in Hn as ->.
      simpl. split; [|lia]. apply (Hpos (current, d)). by left.
Qed.

Lemma layer_inv_step db center max_depth s s' :
  keys_inv s → layer_inv s → step db center max_depth s s' → layer_inv s'.
Proof.
  intros Hkeys Hinv Hstep. pose proof Hinv as (Hlev & Hpos & Hsorted & Hnodes & Hle).
  destruct Hstep as [current d queue ns es visited _
                    |current d queue ns es visited _ _ _
                    |current d queue ns es visited paper Hfresh _ _ _
                    |current d queue ns es visited paper Hfresh _ _]; simpl in *.
  - split_and!; simpl; [by destruct Hlev| |done..|].
    + intros e He. apply Hpos. by right.
    + intros n e Hn He. apply Hle; [done | by right].
  - split_and!; simpl; [by destruct Hlev| |done..|].
    + intros e He. apply Hpos. by right.
    + intros n e Hn He. apply Hle; [done | by right].
  - pose proof (keys_inv_fresh _ _ Hkeys Hfresh) as Hnew. simpl in Hnew.
    destruct (layer_inv_add center current d paper ns queue Hnew) as [Hs Hn].
    { by split_and!. }
    split_and!; simpl; [by destruct Hlev| |done| |].
    + intros e He. apply Hpos. by right.
    + intros n Hin. by apply Hn.
    + intros n e Hin He. destruct (Hn n Hin) as [_ Hd].
      pose proof (levelled_tail_bounds current d queue e Hlev He). lia.
  - pose proof (keys_inv_fresh _ _ Hkeys Hfresh) as Hnew. simpl in Hnew.
    destruct (layer_inv_add center current d paper ns queue Hnew) as [Hs Hn].
    { by split_and!. }
    assert (0 ≤ d) as Hd0 by (apply (Hpos (current, d)); by left).
    assert (Hpushed : ∀ e, e ∈ citing_pushes ({[current]} ∪ visited) d (rows_citing db current)
                             ++ cited_pushes ({[current]} ∪ visited) d (rows_cited_by db current)
                           → e.2 = d + 1).
    { intros [x k] [Hx|Hx]%elem_of_app.
      - by apply elem_of_citing_pushes in Hx as (c & _ & _ & _ & ->).
      - by apply elem_of_cited_pushes in Hx as (c & _ & _ & _ & ->). }
    split_and!; simpl; [| |done| |].
    + apply levelled_app with (d := d + 1); [by destruct Hlev|done|].
      intros e He. exact (levelled_tail_bounds current d queue e Hlev He).
    + intros e [He|He]%elem_of_app; [apply Hpos; by right|]. rewrite (Hpushed e He). lia.
    + intros n Hin. by apply Hn.
    + intros n e Hin [He|He]%elem_of_app; destruct (Hn n Hin) as [_ Hd].
      * pose proof (levelled_tail_bounds current d queue e Hlev He). lia.
      * rewrite (Hpushed e He). lia.
Qed.

Lemma edge_count_inv_step db center max_depth s s' :
  edge_count_inv db s → step db center max_depth s s' → edge_count_inv db s'.
Proof.
  unfold edge_count_inv. intros Hinv Hstep.
  destruct Hstep as [current d queue ns es visited _
                    |current d queue ns es visited Hfresh _ _
                    |current d queue ns es visited paper Hfresh _ _ _
                    |current d queue ns es visited paper Hfresh _ _]; simpl in *;
    [done|..]; pose proof (pending_mark current visited (citations db) Hfresh) as Hp;
    [lia..|].
  rewrite !length_app. unfold citing_edges, cited_edges. rewrite !length_fmap.
  unfold rows_citing, rows_cited_by. lia.
Qed.

(** X9. The nodes come in layer order and the edge list is bounded by the
    table: the traversal finishes, and in the arguments it arrives at the
    depths of the nodes never decrease along the node list and none is
    negative, and there are at most two edges per row of the citations
    table. *)
Theorem nodes_in_layer_order_and_edge_bound db center_id depth_limit max_papers :
  ∃ r, traverse db center_id depth_limit max_papers = Some r
       ∧ ∀ net, r = Return net →
           Sorted Z.le (node_depth <$> nodes net)
           ∧ (∀ n, n ∈ nodes net → 0 ≤ node_depth n)
           ∧ total_citations net ≤ 2 * Z.of_nat (length (citations db)).
Proof.
  destruct (traverse_total db center_id depth_limit max_papers) as (r & Hr & _).
  exists r. split; [done|]. intros net ->.
  apply (traverse_invariant (λ s, keys_inv s ∧ layer_inv s ∧ edge_count_inv db s)) in Hr
    as (s & (_ & (_ & _ & Hsorted & Hnodes & _) & Hcount) & _ & ->).
  - simpl. split_and!; [done..|]. unfold edge_count_inv in Hcount. lia.
  - intros _ _. split_and!.
    + split; [intros k []%elem_of_nil | constructor].
    + split_and!; simpl.
      * split; [intros e []%elem_of_nil | done].
      * intros e ->%list_elem_of_singleton. done.
      * constructor.
      * intros n []%elem_of_nil.
      * intros n e []%elem_of_nil.
    + unfold edge_count_inv, pending. simpl.
      match goal with
      | |- (length ?a + length ?b ≤ _)%nat =>
        assert (length a ≤ length (citations db))%nat by apply length_filter;
        assert (length b ≤ length (citations db))%nat by apply length_filter
      end. lia.
  - intros s s' (? & ? & ?) _ Hstep.
    split_and!; eauto using keys_inv_step, layer_inv_step, edge_count_inv_step.
Qed.
